(** * PySpeed web container: static-file cache, JSON accelerator, request
    parser and response builder

    A shallow embedding of the C++ sources under [src/cpp] and the
    properties of the specification that concern them.

    Conventions.
    - [std::string] is [string]; a [const char*] range [ptr, end) walked by
      a parser is the [list ascii] of the characters still ahead.
    - [size_t] is a [Z] kept in [0, 2^64) by [Cxx.wrap], written out at every
      arithmetic operation of the source.
    - A C++ function that may throw returns an [outcome].
    - [std::unordered_map] used only through [find], [operator[]] and
      [erase] is a [gmap]; where the source iterates over one and the order
      is observable (JSON objects) it is the list of its nodes in iteration
      order, and the place a new node takes in that order is a parameter,
      as the C++ standard leaves it unspecified.
    - Library routines the sources call but do not define ([std::stod],
      the [ostream] formatting of a [double], [std::hash], zlib, the HTTP
      date parser) are section variables.
    - Clocks and the file system are inputs of each call. *)

From Stdlib Require Import ZArith NArith List String Ascii Bool Lia.
From Stdlib Require Import PrimFloat SpecFloat FloatOps DecimalString.
From stdpp Require Import gmap strings list fin_maps sorting.

Local Open Scope string_scope.
Local Open Scope Z_scope.

(** ** C++ runtime notions shared by all components *)

Module Cxx.

(** A call either returns a value or throws an exception carrying [what()]. *)
Inductive outcome (A : Type) : Type :=
| Return (a : A)
| Throw (what : string).
Arguments Return {A} a.
Arguments Throw {A} what.

Definition bind {A B : Type} (x : outcome A) (k : A -> outcome B) : outcome B :=
  match x with
  | Return a => k a
  | Throw w => Throw w
  end.

Definition returned {A : Type} (x : outcome A) : bool :=
  match x with Return _ => true | Throw _ => false end.

(** [size_t] and [uint64_t]: 64-bit unsigned, wrapping. *)
Definition size_t_modulus : Z := 2 ^ 64.
Definition wrap (z : Z) : Z := z mod size_t_modulus.

Definition code (c : ascii) : Z := Z.of_N (N_of_ascii c).

Definition dquote : ascii := ascii_of_nat 34.
Definition nl : ascii := ascii_of_nat 10.
Definition tab : ascii := ascii_of_nat 9.
Definition cr : ascii := ascii_of_nat 13.
Definition backspace : ascii := ascii_of_nat 8.
Definition formfeed : ascii := ascii_of_nat 12.

(** [isspace] in the C locale. *)
Definition isspace (c : ascii) : bool :=
  (code c =? 32) || ((9 <=? code c) && (code c <=? 13)).

Definition isdigit (c : ascii) : bool :=
  (48 <=? code c) && (code c <=? 57).

Definition digit_value (c : ascii) : Z := code c - 48.

(** [::tolower] in the C locale. *)
Definition tolower (c : ascii) : ascii :=
  if (65 <=? code c) && (code c <=? 90)
  then ascii_of_N (N_of_ascii c + 32)
  else c.

Fixpoint transform_tolower (s : string) : string :=
  match s with
  | EmptyString => EmptyString
  | String c s' => String (tolower c) (transform_tolower s')
  end.

(** [std::to_string] of an integer. *)
Definition to_string (z : Z) : string := NilZero.string_of_int (Z.to_int z).

(** [s.size()] as a [size_t]. *)
Definition size (s : string) : Z := Z.of_nat (String.length s).

Definition empty (s : string) : bool :=
  match s with EmptyString => true | _ => false end.

(** [s.substr(pos)]: throws [std::out_of_range] when [pos > size()]. *)
Fixpoint substr_from (s : string) (pos : nat) {struct pos} : outcome string :=
  match pos, s with
  | O, _ => Return s
  | S _, EmptyString => Throw "basic_string::substr"
  | S p, String _ s' => substr_from s' p
  end.

(** [s.substr(0, n)]: at most the first [n] characters. *)
Fixpoint substr_to (s : string) (n : nat) {struct n} : string :=
  match n, s with
  | O, _ => EmptyString
  | S _, EmptyString => EmptyString
  | S k, String c s' => String c (substr_to s' k)
  end.

(** [pyspeed_compat::starts_with] (compatibility.hpp). *)
Definition starts_with (str prefix : string) : bool :=
  (Nat.leb (String.length prefix) (String.length str))
  && String.eqb (substr_to str (String.length prefix)) prefix.

(** [pyspeed_compat::ends_with] (compatibility.hpp). *)
Definition ends_with (str suffix : string) : bool :=
  (Nat.leb (String.length suffix) (String.length str))
  && match substr_from str (String.length str - String.length suffix) with
     | Return t => String.eqb t suffix
     | Throw _ => false
     end.

(** [s.find(c)]: index of the first occurrence, [None] for [npos]. *)
Fixpoint find_char (s : string) (c : ascii) : option nat :=
  match s with
  | EmptyString => None
  | String a s' =>
      if Ascii.eqb a c then Some O
      else match find_char s' c with
           | Some i => Some (S i)
           | None => None
           end
  end.

(** [s.find(pat) != npos]. *)
Fixpoint contains (s pat : string) : bool :=
  String.prefix pat s
  || match s with
     | EmptyString => false
     | String _ s' => contains s' pat
     end.

(** [std::stoull(str)] in base 10, as [strtoull] does it: leading white
    space, an optional sign, then the longest run of digits.  No digit:
    [std::invalid_argument].  A magnitude above [ULLONG_MAX]:
    [std::out_of_range].  A minus sign negates modulo [2^64]. *)
Fixpoint skip_spaces (s : string) : string :=
  match s with
  | String c s' => if isspace c then skip_spaces s' else s
  | EmptyString => s
  end.

Fixpoint digits_prefix (s : string) : list ascii :=
  match s with
  | String c s' => if isdigit c then c :: digits_prefix s' else []
  | EmptyString => []
  end.

Definition digits_value (ds : list ascii) : Z :=
  fold_left (fun acc c => 10 * acc + digit_value c) ds 0.

Definition stoull_unsigned (s : string) : outcome Z :=
  match digits_prefix s with
  | [] => Throw "stoull"
  | ds =>
      if digits_value ds <? size_t_modulus
      then Return (digits_value ds)
      else Throw "stoull"
  end.

Definition stoull (str : string) : outcome Z :=
  match skip_spaces str with
  | String c s' =>
      if Ascii.eqb c "-" then bind (stoull_unsigned s') (fun v => Return (wrap (- v)))
      else if Ascii.eqb c "+" then stoull_unsigned s'
      else stoull_unsigned (String c s')
  | EmptyString => stoull_unsigned EmptyString
  end.

End Cxx.

(** ** JSON value tree, parser and serializer
    (json_accelerator.hpp, json_accelerator.cpp) *)

Module Json.
Import Cxx.

(** [JsonNumber] is [double]. *)
Definition JsonNumber : Type := float.

(** [JsonValue::ValueType]: the variant over the six alternatives.  A
    [JsonObject] is a [std::unordered_map<std::string, JsonValue>]: its
    nodes, listed in the order in which iteration visits them. *)
#[local] Unset Elimination Schemes.
Inductive JsonValue : Type :=
| JNull
| JBool (b : bool)
| JNum (d : JsonNumber)
| JString (s : string)
| JArray (a : list JsonValue)
| JObject (o : list (string * JsonValue)).
#[local] Set Elimination Schemes.

Definition JsonArray : Type := list JsonValue.
Definition JsonObject : Type := list (string * JsonValue).

Definition is_null (v : JsonValue) : bool :=
  match v with JNull => true | _ => false end.
Definition is_array (v : JsonValue) : bool :=
  match v with JArray _ => true | _ => false end.
Definition is_object (v : JsonValue) : bool :=
  match v with JObject _ => true | _ => false end.

(** [JsonValue::type_name]. *)
Definition type_name (v : JsonValue) : string :=
  match v with
  | JNull => "null"
  | JBool _ => "bool"
  | JNum _ => "number"
  | JString _ => "string"
  | JArray _ => "array"
  | JObject _ => "object"
  end.

(** [obj.find(key)]. *)
Fixpoint obj_find (o : JsonObject) (key : string) : option JsonValue :=
  match o with
  | [] => None
  | (k, v) :: o' => if String.eqb k key then Some v else obj_find o' key
  end.

(** Assignment through the reference to the node of an existing key: the
    node keeps its place. *)
Fixpoint obj_store (o : JsonObject) (key : string) (v : JsonValue) : JsonObject :=
  match o with
  | [] => []
  | (k, w) :: o' =>
      if String.eqb k key then (k, v) :: o' else (k, w) :: obj_store o' key v
  end.

(** [long long] is 64-bit signed. *)
Definition LLONG_MIN : Z := - 2 ^ 63.
Definition LLONG_MAX : Z := 2 ^ 63 - 1.

(** The integer part of a finite [double], rounding toward zero. *)
Definition trunc (d : float) : option Z :=
  match Prim2SF d with
  | S754_zero _ => Some 0
  | S754_finite s m e =>
      let mag := if 0 <=? e then Z.pos m * 2 ^ e else Z.pos m / 2 ^ (- e) in
      Some (if s then - mag else mag)
  | S754_infinity _ => None
  | S754_nan => None
  end.

(** [static_cast<long long>(num)]; undefined in C++ when the integer part
    does not fit, modelled by [None]. *)
Definition to_long_long (num : float) : option Z :=
  match trunc num with
  | Some z => if (LLONG_MIN <=? z) && (z <=? LLONG_MAX) then Some z else None
  | None => None
  end.

(** The conversion of a [long long] to [double], to nearest even. *)
Definition of_long_long (z : Z) : float :=
  SF2Prim (binary_normalize prec emax z 0 false).

(** The result of a parsing function that moves [ptr]: the value and the
    input left, or an exception.  [PFuel] marks an exhausted recursion
    bound; [parse] below always supplies enough (lemma [parse_fuel]). *)
Inductive presult (A : Type) : Type :=
| POk (a : A) (rest : list ascii)
| PThrow (what : string)
| PFuel.
Arguments POk {A} a rest.
Arguments PThrow {A} what.
Arguments PFuel {A}.

Section Model.

(** Where [std::unordered_map] links the node of a key that was absent:
    [emplace_new key v o] is the iteration order after the insertion into
    [o].  It depends on the hash function, the bucket count and the
    rehashing policy of the standard library in use. *)
Variable emplace_new : string -> JsonValue -> JsonObject -> JsonObject.

(** [std::stod] on the text of a number; [None] when it throws
    [std::out_of_range]. *)
Variable stod : string -> option float.

(** [oss << std::setprecision(15) << num]. *)
Variable ostream_precision15 : float -> string.

(** [obj[key]] of [std::unordered_map]: the node of [key], inserted with a
    default-constructed (null) value when absent.  Returns the map and
    the value the reference denotes. *)
Definition obj_index (o : JsonObject) (key : string) : JsonObject * JsonValue :=
  match obj_find o key with
  | Some v => (o, v)
  | None => (emplace_new key JNull o, JNull)
  end.

(** [obj[key] = value]. *)
Definition obj_assign (o : JsonObject) (key : string) (value : JsonValue) : JsonObject :=
  obj_store (fst (obj_index o key)) key value.

(** *** JsonValue accessors that mutate *)

(** [JsonValue& JsonValue::operator[](const std::string& key)]: the value
    after the call and the value the returned reference denotes. *)
Definition operator_index (self : JsonValue) (key : string)
  : outcome (JsonValue * JsonValue) :=
  match self with
  | JObject o =>
      let '(o', r) := obj_index o key in Return (JObject o', r)
  | JNull =>
      let '(o', r) := obj_index [] key in Return (JObject o', r)
  | _ => Throw "JsonValue is not an object"
  end.

(** Writing [x] through the reference returned by [operator_index self key]. *)
Definition store_through (self : JsonValue) (key : string) (x : JsonValue) : JsonValue :=
  match self with
  | JObject o => JObject (obj_store o key x)
  | _ => self
  end.

(** [void JsonValue::set(const std::string& key, const JsonValue& value)]
    (the rvalue overload has the same body). *)
Definition set (self : JsonValue) (key : string) (value : JsonValue) : outcome JsonValue :=
  match self with
  | JObject o => Return (JObject (obj_assign o key value))
  | JNull => Return (JObject (obj_assign [] key value))
  | _ => Throw "JsonValue is not an object"
  end.

(** The statement [v[k1][k2]...[kn] = x;]: each [operator[]] is applied to
    the value the previous one returned a reference to, then [x] is
    assigned through the last reference. *)
Fixpoint index_assign (self : JsonValue) (keys : list string) (x : JsonValue)
  : outcome JsonValue :=
  match keys with
  | [] => Return x
  | key :: keys' =>
      bind (operator_index self key) (fun '(self', child) =>
      bind (index_assign child keys' x) (fun child' =>
      Return (store_through self' key child')))
  end.

(** [void JsonValue::push_back(const JsonValue& value)]. *)
Definition push_back (self : JsonValue) (value : JsonValue) : outcome JsonValue :=
  match self with
  | JArray a => Return (JArray (a ++ [value])%list)
  | _ => Throw "JsonValue is not an array"
  end.

(** [bool JsonValue::has_key(const std::string& key) const]. *)
Definition has_key (self : JsonValue) (key : string) : bool :=
  match self with
  | JObject o => match obj_find o key with Some _ => true | None => false end
  | _ => false
  end.

(** *** JsonParser *)

Record ParserConfig : Type := {
  allow_comments : bool;
  allow_trailing_commas : bool;
  strict_mode : bool;
  max_depth : Z;
  max_string_length : Z;
  use_simd : bool
}.

Definition default_parser_config : ParserConfig := {|
  allow_comments := false;
  allow_trailing_commas := false;
  strict_mode := true;
  max_depth := 100;
  max_string_length := 1024 * 1024;
  use_simd := true
|}.

(** [ParserStats], without the clock reading. *)
Record ParserStats : Type := {
  documents_parsed : Z;
  bytes_parsed : Z;
  parse_errors : Z
}.

Definition is_whitespace (c : ascii) : bool :=
  Ascii.eqb c " " || Ascii.eqb c tab || Ascii.eqb c nl || Ascii.eqb c cr.

Definition is_digit (c : ascii) : bool :=
  (code "0" <=? code c) && (code c <=? code "9").

(** [ptr < end && *ptr == c]. *)
Definition head_is (c : ascii) (input : list ascii) : bool :=
  match input with
  | a :: _ => Ascii.eqb a c
  | [] => false
  end.

Fixpoint skip_whitespace_simd (input : list ascii) : list ascii :=
  match input with
  | c :: rest => if is_whitespace c then skip_whitespace_simd rest else input
  | [] => []
  end.

(** The two inner loops of [skip_comments]. *)
Fixpoint skip_line (input : list ascii) : list ascii :=
  match input with
  | c :: rest => if Ascii.eqb c nl then input else skip_line rest
  | [] => []
  end.

Fixpoint skip_block (input : list ascii) : list ascii :=
  match input with
  | a :: rest =>
      match rest with
      | b :: rest' =>
          if Ascii.eqb a "*" && Ascii.eqb b "/" then rest' else skip_block rest
      | [] => input
      end
  | [] => []
  end.

Variable config_ : ParserConfig.

(** [skip_whitespace] and [skip_comments] call each other; [fuel] bounds
    the number of comments skipped and [length input] is always enough. *)
Fixpoint skip_whitespace_fuel (fuel : nat) (input : list ascii) : list ascii :=
  if use_simd config_ then skip_whitespace_simd input
  else
    let input1 := skip_whitespace_simd input in
    if allow_comments config_ then
      match fuel with
      | O => input1
      | S fuel' =>
          (fix skip_comments (fuel : nat) (input : list ascii) : list ascii :=
             match fuel with
             | S fuel'' =>
                 if head_is "/" input && head_is "/" (tl input) then
                   skip_comments fuel''
                     (skip_whitespace_fuel fuel'' (skip_line (tl (tl input))))
                 else if head_is "/" input && head_is "*" (tl input) then
                   skip_comments fuel''
                     (skip_whitespace_fuel fuel'' (skip_block (tl (tl input))))
                 else input
             | O => input
             end) fuel' input1
      end
    else input1.

Definition skip_whitespace (input : list ascii) : list ascii :=
  skip_whitespace_fuel (S (length input)) input.


(** The scanning loop of [parse_string]: from the character after the
    opening quote to the closing quote; returns the raw text between the
    quotes and the input from the closing quote on. *)
Fixpoint scan_string (input : list ascii) : outcome (list ascii * list ascii) :=
  match input with
  | [] => Throw "Unterminated string"
  | c :: rest =>
      if Ascii.eqb c dquote then Return ([], input)
      else if Ascii.eqb c "\" then
        match rest with
        | [] => Throw "Unterminated string escape"
        | d :: rest' =>
            bind (scan_string rest') (fun '(raw, after) => Return (c :: d :: raw, after))
        end
      else bind (scan_string rest) (fun '(raw, after) => Return (c :: raw, after))
  end.

(** [decode_string(start, end)]. *)
Fixpoint decode_string (raw : list ascii) : outcome string :=
  let push (c : ascii) (r : outcome string) := bind r (fun s => Return (String c s)) in
  match raw with
  | [] => Return ""
  | c :: rest =>
      if Ascii.eqb c "\" then
        match rest with
        | [] => Throw "Unterminated escape sequence"
        | e :: rest' =>
            if Ascii.eqb e dquote then push dquote (decode_string rest')
            else if Ascii.eqb e "\" then push "\"%char (decode_string rest')
            else if Ascii.eqb e "/" then push "/"%char (decode_string rest')
            else if Ascii.eqb e "b" then push backspace (decode_string rest')
            else if Ascii.eqb e "f" then push formfeed (decode_string rest')
            else if Ascii.eqb e "n" then push nl (decode_string rest')
            else if Ascii.eqb e "r" then push cr (decode_string rest')
            else if Ascii.eqb e "t" then push tab (decode_string rest')
            else if Ascii.eqb e "u" then
              match rest' with
              | _ :: _ :: _ :: _ :: rest'' => push "?"%char (decode_string rest'')
              | _ => Throw "Invalid unicode escape"
              end
            else Throw "Invalid escape character"
        end
      else push c (decode_string rest)
  end.

(** [parse_string]: [input] starts at the opening quote. *)
Definition parse_string (input : list ascii) : presult JsonValue :=
  if head_is dquote input then
    match scan_string (tl input) with
    | Throw w => PThrow w
    | Return (raw, after) =>
        match decode_string raw with
        | Throw w => PThrow w
        | Return result => POk (JString result) (tl after)
        end
    end
  else PThrow ("Expected '" +:+ String dquote "'").

(** [while (ptr < end && is_digit( *ptr)) ++ptr;] *)
Fixpoint take_digits (input : list ascii) : list ascii * list ascii :=
  match input with
  | c :: rest =>
      if is_digit c
      then let '(ds, after) := take_digits rest in (c :: ds, after)
      else ([], input)
  | [] => ([], [])
  end.

Definition starts_with_digit (input : list ascii) : bool :=
  match input with c :: _ => is_digit c | [] => false end.

(** [parse_number]. *)
Definition parse_number (input : list ascii) : presult JsonValue :=
  let '(sign, p1) :=
    if head_is "-" input then (["-"%char], tl input) else ([], input) in
  if negb (starts_with_digit p1) then PThrow "Invalid number" else
  let '(int_part, p2) :=
    if head_is "0" p1 then (["0"%char], tl p1) else take_digits p1 in
  let fraction : outcome (list ascii * list ascii) :=
    if head_is "." p2 then
      if negb (starts_with_digit (tl p2)) then Throw "Invalid decimal number"
      else let '(ds, after) := take_digits (tl p2) in Return ("."%char :: ds, after)
    else Return ([], p2) in
  match fraction with
  | Throw w => PThrow w
  | Return (frac_part, p3) =>
      let exponent : outcome (list ascii * list ascii) :=
        match p3 with
        | e :: rest =>
            if Ascii.eqb e "e" || Ascii.eqb e "E" then
              let '(esign, p4) :=
                match rest with
                | s :: rest' =>
                    if Ascii.eqb s "+" || Ascii.eqb s "-" then ([s], rest') else ([], rest)
                | [] => ([], rest)
                end in
              if negb (starts_with_digit p4) then Throw "Invalid number exponent"
              else let '(ds, after) := take_digits p4 in Return ((e :: esign ++ ds)%list, after)
            else Return ([], p3)
        | [] => Return ([], p3)
        end in
      match exponent with
      | Throw w => PThrow w
      | Return (exp_part, p5) =>
          let number_str :=
            string_of_list_ascii (sign ++ int_part ++ frac_part ++ exp_part)%list in
          match stod number_str with
          | Some value => POk (JNum value) p5
          | None => PThrow "stod"
          end
      end
  end.

(** [ptr + n <= end && std::strncmp(ptr, word, n) == 0]: the input left
    after [word], if it starts with it. *)
Fixpoint strip_prefix (word : list ascii) (input : list ascii) : option (list ascii) :=
  match word, input with
  | [], _ => Some input
  | w :: word', c :: rest => if Ascii.eqb w c then strip_prefix word' rest else None
  | _ :: _, [] => None
  end.

(** [parse_literal]. *)
Definition parse_literal (input : list ascii) : presult JsonValue :=
  match strip_prefix (list_ascii_of_string "true") input with
  | Some rest => POk (JBool true) rest
  | None =>
      match strip_prefix (list_ascii_of_string "false") input with
      | Some rest => POk (JBool false) rest
      | None =>
          match strip_prefix (list_ascii_of_string "null") input with
          | Some rest => POk JNull rest
          | None => PThrow "Invalid literal"
          end
      end
  end.

(** [parse_value], with the [while] loops of [parse_object] and
    [parse_array] as [object_loop] and [array_loop]; the loops carry the
    container built so far.  Every call and every iteration consumes input,
    [fuel] bounds their number. *)
Fixpoint parse_value (fuel : nat) (input : list ascii) {struct fuel} : presult JsonValue :=
  match fuel with
  | O => PFuel
  | S fuel' =>
      match skip_whitespace input with
      | [] => PThrow "Unexpected end of input"
      | (c :: rest) as p =>
          if Ascii.eqb c "{" then
            (* parse_object *)
            let p' := skip_whitespace rest in
            if head_is "}" p' then POk (JObject []) (tl p')
            else object_loop fuel' [] p'
          else if Ascii.eqb c "[" then
            (* parse_array *)
            let p' := skip_whitespace rest in
            if head_is "]" p' then POk (JArray []) (tl p')
            else array_loop fuel' [] p'
          else if Ascii.eqb c dquote then parse_string p
          else if Ascii.eqb c "t" || Ascii.eqb c "f" || Ascii.eqb c "n" then parse_literal p
          else if Ascii.eqb c "-" || is_digit c then parse_number p
          else PThrow ("Unexpected character: " +:+ String c "")
      end
  end

with object_loop (fuel : nat) (obj : JsonObject) (input : list ascii) {struct fuel}
  : presult JsonValue :=
  match fuel with
  | O => PFuel
  | S fuel' =>
      match input with
      | [] => POk (JObject obj) []
      | _ :: _ =>
          let p1 := skip_whitespace input in
          if head_is dquote p1 then
              match parse_string p1 with
              | POk (JString key) p2 =>
                  let p2' := skip_whitespace p2 in
                  if head_is ":" p2' then
                      match parse_value fuel' (tl p2') with
                      | POk value p4 =>
                          let obj' := obj_assign obj key value in
                          match skip_whitespace p4 with
                          | [] => PThrow "Unexpected end of object"
                          | c :: p5 =>
                              if Ascii.eqb c "}" then POk (JObject obj') p5
                              else if Ascii.eqb c "," then
                                if allow_trailing_commas config_ then
                                  let p6 := skip_whitespace p5 in
                                  if head_is "}" p6 then POk (JObject obj') (tl p6)
                                  else object_loop fuel' obj' p6
                                else object_loop fuel' obj' p5
                              else PThrow "Expected ',' or '}'"
                          end
                      | PThrow w => PThrow w
                      | PFuel => PFuel
                      end
                  else PThrow "Expected ':'"
              | POk _ _ => PThrow "bad_variant_access"
              | PThrow w => PThrow w
              | PFuel => PFuel
              end
          else PThrow "Expected string key"
      end
  end

with array_loop (fuel : nat) (arr : JsonArray) (input : list ascii) {struct fuel}
  : presult JsonValue :=
  match fuel with
  | O => PFuel
  | S fuel' =>
      match input with
      | [] => POk (JArray arr) []
      | _ :: _ =>
          match parse_value fuel' input with
          | POk value p1 =>
              let arr' := (arr ++ [value])%list in
              match skip_whitespace p1 with
              | [] => PThrow "Unexpected end of array"
              | c :: p2 =>
                  if Ascii.eqb c "]" then POk (JArray arr') p2
                  else if Ascii.eqb c "," then
                    if allow_trailing_commas config_ then
                      let p3 := skip_whitespace p2 in
                      if head_is "]" p3 then POk (JArray arr') (tl p3)
                      else array_loop fuel' arr' p3
                    else array_loop fuel' arr' p2
                  else PThrow "Expected ',' or ']'"
              end
          | PThrow w => PThrow w
          | PFuel => PFuel
          end
      end
  end.

(** [JsonParser::parse(const char* json_str, size_t length)]: the value or
    the exception rethrown, and the statistics after the call. *)
Definition parse_document (json_str : list ascii) : presult JsonValue :=
  match skip_whitespace json_str with
  | [] => PThrow "Empty JSON document"
  | p =>
      match parse_value (S (length json_str)) p with
      | POk result p' =>
          match skip_whitespace p' with
          | (_ :: _) as trailing =>
              if strict_mode config_
              then PThrow "Unexpected content after JSON document"
              else POk result trailing
          | [] => POk result []
          end
      | r => r
      end
  end.

Definition parse (stats_ : ParserStats) (json_str : string)
  : presult JsonValue * ParserStats :=
  let input := list_ascii_of_string json_str in
  match parse_document input with
  | POk result rest =>
      (POk result rest,
       {| documents_parsed := wrap (documents_parsed stats_ + 1);
          bytes_parsed := wrap (bytes_parsed stats_ + Z.of_nat (length input));
          parse_errors := parse_errors stats_ |})
  | r =>
      (r,
       {| documents_parsed := documents_parsed stats_;
          bytes_parsed := bytes_parsed stats_;
          parse_errors := wrap (parse_errors stats_ + 1) |})
  end.


(** *** JsonSerializer *)

Record SerializerConfig : Type := {
  pretty_print : bool;
  indent_size : Z;
  escape_unicode : bool;
  sort_keys : bool;
  ensure_ascii : bool
}.

Definition default_serializer_config : SerializerConfig := {|
  pretty_print := false;
  indent_size := 2;
  escape_unicode := false;
  sort_keys := false;
  ensure_ascii := false
|}.

Record SerializerStats : Type := {
  documents_serialized : Z;
  bytes_serialized : Z;
  serialize_errors : Z
}.

(** [char] is signed: [static_cast<int>(c)] of a byte above 127 is
    negative. *)
Definition char_value (c : ascii) : Z :=
  if code c <? 128 then code c else code c - 256.

(** [needs_escaping]. *)
Definition needs_escaping (c : ascii) : bool :=
  Ascii.eqb c dquote || Ascii.eqb c "\" || (char_value c <? 32).

Definition hex_digit (d : Z) : ascii :=
  if d <? 10 then ascii_of_N (Z.to_N (48 + d)) else ascii_of_N (Z.to_N (87 + d)).

(** The [n] low hexadecimal digits of [z], most significant first. *)
Fixpoint hex_digits (n : nat) (z : Z) : string :=
  match n with
  | O => ""
  | S n' => hex_digits n' (z / 16) +:+ String (hex_digit (z mod 16)) ""
  end.

(** [oss << std::hex << std::setw(4) << std::setfill('0') <<
    static_cast<int>(c)] for an escaped character: a negative [int] prints
    as its 32-bit two's complement, eight digits. *)
Definition hex4 (c : ascii) : string :=
  if 0 <=? char_value c then hex_digits 4 (char_value c)
  else hex_digits 8 (2 ^ 32 + char_value c).

(** [escape_string]. *)
Fixpoint escape_string (str : string) : string :=
  match str with
  | EmptyString => ""
  | String c str' =>
      (if needs_escaping c then
         "\" +:+
         (if Ascii.eqb c dquote then String dquote ""
          else if Ascii.eqb c "\" then "\"
          else if Ascii.eqb c backspace then "b"
          else if Ascii.eqb c formfeed then "f"
          else if Ascii.eqb c nl then "n"
          else if Ascii.eqb c cr then "r"
          else if Ascii.eqb c tab then "t"
          else "u" +:+ hex4 c)
       else String c "")
      +:+ escape_string str'
  end.

(** [serialize_string]. *)
Definition serialize_string (str : string) : string :=
  String dquote (escape_string str +:+ String dquote "").

(** [serialize_number]: the integer form when [num] equals its own
    [long long] truncation. *)
Definition serialize_number (num : float) : string :=
  match to_long_long num with
  | Some z =>
      if PrimFloat.eqb num (of_long_long z) then to_string z
      else ostream_precision15 num
  | None => ostream_precision15 num
  end.

Variable sconfig_ : SerializerConfig.

(** [add_indent]. *)
Definition add_indent (depth : Z) : string :=
  string_of_list_ascii (repeat " "%char (Z.to_nat (depth * indent_size sconfig_))).

Definition newline_if_pretty : string :=
  if pretty_print sconfig_ then String nl "" else "".

Definition indent_if_pretty (depth : Z) : string :=
  if pretty_print sconfig_ then add_indent depth else "".

Section Containers.

(** The recursive call [serialize_value(value, output, depth)]. *)
Variable serialize_element : JsonValue -> Z -> string.

(** The [for] loop of [serialize_object] over the nodes of the map. *)
Fixpoint serialize_members (obj : JsonObject) (first : bool) (depth : Z) : string :=
  match obj with
  | [] => ""
  | (key, value) :: obj' =>
      (if first then "" else "," +:+ newline_if_pretty)
      +:+ indent_if_pretty (depth + 1)
      +:+ serialize_string key +:+ ":"
      +:+ (if pretty_print sconfig_ then " " else "")
      +:+ serialize_element value (depth + 1)
      +:+ serialize_members obj' false depth
  end.

(** [serialize_object]. *)
Definition serialize_object_with (obj : JsonObject) (depth : Z) : string :=
  "{" +:+ newline_if_pretty
  +:+ serialize_members obj true depth
  +:+ (match obj with
       | [] => ""
       | _ :: _ => newline_if_pretty +:+ indent_if_pretty depth
       end)
  +:+ "}".

(** The [for] loop of [serialize_array]. *)
Fixpoint serialize_elements (arr : JsonArray) (first : bool) (depth : Z) : string :=
  match arr with
  | [] => ""
  | value :: arr' =>
      (if first then "" else "," +:+ newline_if_pretty)
      +:+ indent_if_pretty (depth + 1)
      +:+ serialize_element value (depth + 1)
      +:+ serialize_elements arr' false depth
  end.

(** [serialize_array]. *)
Definition serialize_array_with (arr : JsonArray) (depth : Z) : string :=
  "[" +:+ (match arr with [] => "" | _ :: _ => newline_if_pretty end)
  +:+ serialize_elements arr true depth
  +:+ (match arr with
       | [] => ""
       | _ :: _ => newline_if_pretty +:+ indent_if_pretty depth
       end)
  +:+ "]".

End Containers.

(** [serialize_value]: what the call appends to [output]. *)
Fixpoint serialize_value (value : JsonValue) (depth : Z) {struct value} : string :=
  match value with
  | JNull => "null"
  | JBool b => if b then "true" else "false"
  | JNum d => serialize_number d
  | JString s => serialize_string s
  | JArray arr => serialize_array_with serialize_value arr depth
  | JObject obj => serialize_object_with serialize_value obj depth
  end.

Definition serialize_object (obj : JsonObject) (depth : Z) : string :=
  serialize_object_with serialize_value obj depth.

Definition serialize_array (arr : JsonArray) (depth : Z) : string :=
  serialize_array_with serialize_value arr depth.

(** [std::string JsonSerializer::serialize(const JsonValue& value)]. *)
Definition serialize (stats_ : SerializerStats) (value : JsonValue)
  : string * SerializerStats :=
  let result := serialize_value value 0 in
  (result,
   {| documents_serialized := wrap (documents_serialized stats_ + 1);
      bytes_serialized := wrap (bytes_serialized stats_ + size result);
      serialize_errors := serialize_errors stats_ |}).

End Model.


(** [json::parse]: a fresh parser with the default configuration. *)
Definition json_parse emplace_new stod (json_str : string) : presult JsonValue :=
  fst (parse emplace_new stod default_parser_config
         {| documents_parsed := 0; bytes_parsed := 0; parse_errors := 0 |} json_str).

(** [json::dumps(value, pretty)]. *)
Definition dumps ostream_precision15 (value : JsonValue) (pretty : bool) : string :=
  fst (serialize ostream_precision15
         {| pretty_print := pretty; indent_size := 2; escape_unicode := false;
            sort_keys := false; ensure_ascii := false |}
         {| documents_serialized := 0; bytes_serialized := 0; serialize_errors := 0 |}
         value).

(** *** Two iteration orders a standard library may implement *)

(** A new node is linked at the head of the node list: what libstdc++
    does when the bucket of the key is empty, and for any second key. *)
Definition emplace_front (key : string) (v : JsonValue) (o : JsonObject) : JsonObject :=
  (key, v) :: o.

(** A container that iterates in insertion order. *)
Definition emplace_back (key : string) (v : JsonValue) (o : JsonObject) : JsonObject :=
  (o ++ [(key, v)])%list.

(** [std::stod] restricted to the texts made of an optional minus sign
    and digits, where it is the integer converted to [double]. *)
Definition stod_integer (text : string) : option float :=
  let '(negative, body) :=
    match text with
    | String "-" t => (true, t)
    | _ => (false, text)
    end in
  let ds := digits_prefix body in
  if negb (Nat.eqb (length ds) 0) && Nat.eqb (length ds) (String.length body)
  then Some (of_long_long (if negative then - digits_value ds else digits_value ds))
  else None.

(** A formatter that prints no digits, for the cases where the text of a
    non-integral number does not matter. *)
Definition ostream_placeholder (num : float) : string := "<double>".


(** *** Properties of the value tree *)

Section ObjectProperties.

Variable emplace_new : string -> JsonValue -> JsonObject -> JsonObject.

(** What every [std::unordered_map] guarantees of an insertion: the nodes
    afterwards are the new node and the old ones, in some order. *)
Hypothesis emplace_new_perm :
  forall key v o, emplace_new key v o ≡ₚ (key, v) :: o.

Lemma emplace_new_nil key v : emplace_new key v [] = [(key, v)].
Proof. apply Permutation_singleton_r, emplace_new_perm. Qed.

Lemma obj_store_head key v w o : obj_store ((key, w) :: o) key v = (key, v) :: o.
Proof. simpl. now rewrite String.eqb_refl. Qed.

Lemma obj_assign_nil key v : obj_assign emplace_new [] key v = [(key, v)].
Proof.
  unfold obj_assign, obj_index. simpl.
  rewrite emplace_new_nil. apply obj_store_head.
Qed.

(** [{k1: {k2: ... {kn: x}}}]. *)
Fixpoint nested_object (keys : list string) (x : JsonValue) : JsonValue :=
  match keys with
  | [] => x
  | key :: keys' => JObject [(key, nested_object keys' x)]
  end.

Lemma index_assign_null keys x :
  index_assign emplace_new JNull keys x = Return (nested_object keys x).
Proof.
  induction keys as [|key keys IH]; simpl; [reflexivity|].
  unfold obj_index. simpl. rewrite emplace_new_nil. simpl.
  rewrite IH. simpl. now rewrite String.eqb_refl.
Qed.

(** C10. The mutating [operator[](key)] and [set(key, value)] turn a null
    value into an object holding just that key, throw on a bool, number,
    string or array, and therefore the assignment
    [v[k1]...[kn] = x] on a default-constructed (null) [v] always returns,
    leaving the nested objects [{k1: {... {kn: x}}}]. *)
Theorem null_becomes_object_on_index :
  (forall key,
     operator_index emplace_new JNull key = Return (JObject [(key, JNull)], JNull))
  /\ (forall key value,
        set emplace_new JNull key value = Return (JObject [(key, value)]))
  /\ (forall self key value,
        is_null self = false -> is_object self = false ->
        operator_index emplace_new self key = Throw "JsonValue is not an object"
        /\ set emplace_new self key value = Throw "JsonValue is not an object")
  /\ (forall keys x,
        index_assign emplace_new JNull keys x = Return (nested_object keys x)).
Proof.
  repeat split.
  - intros key. unfold operator_index, obj_index. simpl.
    now rewrite emplace_new_nil.
  - intros key value. unfold set. now rewrite obj_assign_nil.
  - destruct self; simpl in *; congruence.
  - destruct self; simpl in *; congruence.
  - apply index_assign_null.
Qed.

End ObjectProperties.

Lemma null_becomes_object_on_index_witness :
  index_assign emplace_front JNull ["a"; "b"] (JBool true)
  = Return (JObject [("a", JObject [("b", JBool true)])])
  /\ operator_index emplace_front (JArray []) "a" = Throw "JsonValue is not an object".
Proof.
  pose proof (null_becomes_object_on_index emplace_front
                (fun key v o => Permutation_refl ((key, v) :: o))) as H.
  split.
  - apply (proj2 (proj2 (proj2 H)) ["a"; "b"] (JBool true)).
  - apply (proj1 (proj2 (proj2 H)) (JArray []) "a" JNull); reflexivity.
Defined.

(** *** The parser and the configured depth limit *)

(** [n] opening brackets followed by [n] closing ones, and the value they
    denote. *)
Definition nested_arrays_text (n : nat) : list ascii :=
  (repeat "["%char n ++ repeat "]"%char n)%list.

Fixpoint nested_arrays (n : nat) : JsonValue :=
  match n with
  | O => JArray []
  | S n' => JArray [nested_arrays n']
  end.

Section ParserProperties.

Variable emplace_new : string -> JsonValue -> JsonObject -> JsonObject.
Variable stod : string -> option float.
Variable config_ : ParserConfig.

Lemma skip_whitespace_token c rest :
  is_whitespace c = false -> c <> "/"%char ->
  skip_whitespace config_ (c :: rest) = c :: rest.
Proof.
  intros Hws Hslash. unfold skip_whitespace. simpl.
  rewrite Hws.
  destruct (use_simd config_); [reflexivity|].
  destruct (allow_comments config_); [|reflexivity].
  destruct (length rest); destruct c as [[] [] [] [] [] [] [] []];
    try reflexivity; try discriminate; exfalso; apply Hslash; reflexivity.
Qed.

Lemma skip_whitespace_nil : skip_whitespace config_ [] = [].
Proof.
  unfold skip_whitespace. simpl.
  destruct (use_simd config_), (allow_comments config_); reflexivity.
Qed.

Lemma parse_nested_arrays n : forall fuel tail,
  (2 * n + 1 <= fuel)%nat ->
  parse_value emplace_new stod config_ fuel
    (repeat "["%char (S n) ++ repeat "]"%char (S n) ++ tail)%list
  = POk (nested_arrays n) tail.
Proof.
  induction n as [|n IH]; intros fuel tail Hfuel.
  - destruct fuel as [|fuel]; [lia|]. simpl.
    rewrite skip_whitespace_token by (reflexivity || discriminate). simpl.
    rewrite skip_whitespace_token by (reflexivity || discriminate).
    reflexivity.
  - destruct fuel as [|[|fuel]]; [lia|lia|].
    change (repeat "["%char (S (S n)) ++ repeat "]"%char (S (S n)) ++ tail)%list
      with ("["%char :: repeat "["%char (S n) ++ repeat "]"%char (S (S n)) ++ tail)%list.
    replace (repeat "]"%char (S (S n)) ++ tail)%list
      with (repeat "]"%char (S n) ++ "]"%char :: tail)%list.
    2:{ symmetry. change (repeat "]"%char (S (S n)))
          with ("]"%char :: repeat "]"%char (S n)).
        rewrite repeat_cons, <- app_assoc. reflexivity. }
    cbn [parse_value].
    rewrite skip_whitespace_token by (reflexivity || discriminate).
    cbn [Ascii.eqb Bool.eqb].
    change (repeat "["%char (S n) ++ repeat "]"%char (S n) ++ "]"%char :: tail)%list
      with ("["%char :: repeat "["%char n ++ repeat "]"%char (S n) ++ "]"%char :: tail)%list.
    rewrite skip_whitespace_token by (reflexivity || discriminate).
    cbn [array_loop].
    change ("["%char :: repeat "["%char n ++ repeat "]"%char (S n) ++ "]"%char :: tail)%list
      with (repeat "["%char (S n) ++ repeat "]"%char (S n) ++ "]"%char :: tail)%list.
    rewrite IH by lia.
    rewrite skip_whitespace_token by (reflexivity || discriminate).
    reflexivity.
Qed.

(** C5 (the code departs from it). [max_depth] is declared in
    [JsonParser::Config] but no parsing function reads it: an input nested
    deeper than [max_depth] is parsed like any other.  [n + 1] nested
    arrays with [n + 1 > max_depth] yield the value, count as a parsed
    document and leave [parse_errors] as it was. *)
Theorem parse_ignores_max_depth (stats_ : ParserStats) (n : nat) :
  max_depth config_ < Z.of_nat (S n) ->
  parse emplace_new stod config_ stats_
    (string_of_list_ascii (nested_arrays_text (S n)))
  = (POk (nested_arrays n) [],
     {| documents_parsed := wrap (documents_parsed stats_ + 1);
        bytes_parsed := wrap (bytes_parsed stats_ + Z.of_nat (2 * S n));
        parse_errors := parse_errors stats_ |}).
Proof.
  intros _. unfold parse, parse_document.
  rewrite list_ascii_of_string_of_list_ascii.
  assert (Hlen : length (nested_arrays_text (S n)) = (2 * S n)%nat).
  { unfold nested_arrays_text. rewrite length_app, !repeat_length. lia. }
  rewrite Hlen.
  unfold nested_arrays_text.
  change (repeat "["%char (S n) ++ repeat "]"%char (S n))%list
    with ("["%char :: repeat "["%char n ++ repeat "]"%char (S n))%list at 1.
  rewrite skip_whitespace_token by (reflexivity || discriminate).
  change ("["%char :: repeat "["%char n ++ repeat "]"%char (S n))%list
    with (repeat "["%char (S n) ++ repeat "]"%char (S n))%list.
  rewrite <- (app_nil_r (repeat "]"%char (S n))).
  rewrite parse_nested_arrays by lia.
  rewrite skip_whitespace_nil.
  reflexivity.
Qed.

End ParserProperties.

Lemma parse_ignores_max_depth_witness :
  max_depth default_parser_config < 101
  /\ fst (parse emplace_front stod_integer default_parser_config
            {| documents_parsed := 0; bytes_parsed := 0; parse_errors := 0 |}
            (string_of_list_ascii (nested_arrays_text 101)))
     = POk (nested_arrays 100) [].
Proof.
  split; [reflexivity|].
  rewrite (parse_ignores_max_depth emplace_front stod_integer default_parser_config
             {| documents_parsed := 0; bytes_parsed := 0; parse_errors := 0 |} 100);
    reflexivity.
Defined.


(** *** The serializer and the order of the members of an object *)

Lemma string_app_cons (x : ascii) (a b : string) :
  String x a +:+ b = String x (a +:+ b).
Proof. reflexivity. Qed.

Lemma string_app_nil_l (a : string) : "" +:+ a = a.
Proof. reflexivity. Qed.

Lemma string_app_assoc (a b c : string) : (a +:+ b) +:+ c = a +:+ (b +:+ c).
Proof.
  induction a as [|x a IH]; [reflexivity|].
  rewrite !string_app_cons. now rewrite IH.
Qed.

Lemma string_app_nil_r (a : string) : a +:+ "" = a.
Proof.
  induction a as [|x a IH]; [reflexivity|].
  rewrite string_app_cons. now rewrite IH.
Qed.

Ltac string_normalize :=
  repeat (rewrite ?string_app_assoc, ?string_app_cons, ?string_app_nil_l,
            ?string_app_nil_r).

Section SerializerProperties.

Variable ostream_precision15 : float -> string.
Variable sconfig_ : SerializerConfig.

Hypothesis compact : pretty_print sconfig_ = false.

(** What [serialize_object] emits for one member, and [serialize_array]
    for one element. *)
Definition member_text (depth : Z) (member : string * JsonValue) : string :=
  serialize_string (fst member) +:+ ":"
  +:+ serialize_value ostream_precision15 sconfig_ (snd member) (depth + 1).

Definition element_text (depth : Z) (element : JsonValue) : string :=
  serialize_value ostream_precision15 sconfig_ element (depth + 1).

Lemma serialize_members_compact obj : forall first depth,
  serialize_members sconfig_ (serialize_value ostream_precision15 sconfig_) obj first depth
  = match obj with
    | [] => ""
    | _ :: _ =>
        (if first then "" else ",") +:+ String.concat "," (map (member_text depth) obj)
    end.
Proof.
  induction obj as [|[key value] obj IH]; intros first depth; [reflexivity|].
  cbn [serialize_members]. rewrite IH.
  unfold newline_if_pretty, indent_if_pretty. rewrite compact.
  unfold member_text at 1. cbn [fst snd map String.concat].
  destruct obj as [|m obj]; cbn [map]; unfold member_text; cbn [fst snd];
    destruct first; string_normalize; reflexivity.
Qed.

Lemma serialize_elements_compact arr : forall first depth,
  serialize_elements sconfig_ (serialize_value ostream_precision15 sconfig_) arr first depth
  = match arr with
    | [] => ""
    | _ :: _ =>
        (if first then "" else ",") +:+ String.concat "," (map (element_text depth) arr)
    end.
Proof.
  induction arr as [|value arr IH]; intros first depth; [reflexivity|].
  cbn [serialize_elements]. rewrite IH.
  unfold newline_if_pretty, indent_if_pretty. rewrite compact.
  unfold element_text at 1. cbn [map String.concat].
  destruct arr as [|m arr]; cbn [map]; unfold element_text;
    destruct first; string_normalize; reflexivity.
Qed.

(** X1. Without [pretty_print], an object is serialized as its members
    [key:value] in the iteration order of the container, separated by
    single commas between braces, and an array as its elements in index
    order between brackets: no separator precedes the first or follows the
    last, and no white space is emitted. *)
Theorem compact_serialization_joins_in_order :
  (forall obj depth,
     serialize_object ostream_precision15 sconfig_ obj depth
     = "{" +:+ String.concat "," (map (member_text depth) obj) +:+ "}")
  /\ (forall arr depth,
        serialize_array ostream_precision15 sconfig_ arr depth
        = "[" +:+ String.concat "," (map (element_text depth) arr) +:+ "]").
Proof.
  split; intros c depth.
  - unfold serialize_object, serialize_object_with.
    rewrite serialize_members_compact.
    unfold newline_if_pretty, indent_if_pretty. rewrite compact.
    destruct c; reflexivity.
  - unfold serialize_array, serialize_array_with.
    rewrite serialize_elements_compact.
    unfold newline_if_pretty, indent_if_pretty. rewrite compact.
    destruct c; reflexivity.
Qed.

End SerializerProperties.

Lemma compact_serialization_joins_in_order_witness :
  serialize_object ostream_placeholder default_serializer_config
    [("b", JArray [JBool true; JNull]); ("a", JString "x")] 0
  = "{" +:+ String.concat ","
       (map (member_text ostream_placeholder default_serializer_config 0)
          [("b", JArray [JBool true; JNull]); ("a", JString "x")]) +:+ "}".
Proof.
  apply (proj1 (compact_serialization_joins_in_order ostream_placeholder
                  default_serializer_config eq_refl)).
Defined.


(** *** Read accessors of [JsonValue] *)

(** [size_t JsonValue::size() const]. *)
Definition value_size (self : JsonValue) : Z :=
  match self with
  | JArray a => Z.of_nat (length a)
  | JObject o => Z.of_nat (length o)
  | _ => 0
  end.

(** [JsonValue::operator[](size_t index)]: the element the returned
    reference denotes (the const and the non-const overload make the same
    checks). *)
Definition operator_at (self : JsonValue) (index : nat) : outcome JsonValue :=
  match self with
  | JArray arr =>
      if Nat.leb (length arr) index then Throw "Array index out of bounds"
      else match arr !! index with
           | Some v => Return v
           | None => Throw "Array index out of bounds"
           end
  | _ => Throw "JsonValue is not an array"
  end.

(** [const JsonValue& JsonValue::operator[](const std::string& key) const]. *)
Definition operator_index_const (self : JsonValue) (key : string) : outcome JsonValue :=
  match self with
  | JObject obj =>
      match obj_find obj key with
      | Some v => Return v
      | None => Throw ("Object key not found: " +:+ key)
      end
  | _ => Throw "JsonValue is not an object"
  end.

(** The invariant of a [std::unordered_map]: one node per key. *)
Definition unique_keys (o : JsonObject) : Prop := NoDup (map fst o).

Lemma obj_find_store_eq o key v :
  obj_find o key <> None -> obj_find (obj_store o key v) key = Some v.
Proof.
  induction o as [|[k w] o IH]; simpl; [congruence|].
  destruct (String.eqb_spec k key) as [->|Hne]; simpl.
  - now rewrite String.eqb_refl.
  - intros H. destruct (String.eqb_spec k key); [congruence|auto].
Qed.

Lemma obj_find_store_ne o key key' v :
  key' <> key -> obj_find (obj_store o key v) key' = obj_find o key'.
Proof.
  intros Hne. induction o as [|[k w] o IH]; simpl; [reflexivity|].
  destruct (String.eqb_spec k key) as [->|Hk]; simpl.
  - destruct (String.eqb_spec key key'); [congruence|reflexivity].
  - now rewrite IH.
Qed.

Lemma obj_store_keys o key v : map fst (obj_store o key v) = map fst o.
Proof.
  induction o as [|[k w] o IH]; simpl; [reflexivity|].
  destruct (String.eqb k key); simpl; [reflexivity|now rewrite IH].
Qed.

Lemma obj_store_store o key v1 v2 :
  obj_store (obj_store o key v1) key v2 = obj_store o key v2.
Proof.
  induction o as [|[k w] o IH]; simpl; [reflexivity|].
  destruct (String.eqb_spec k key) as [->|Hk]; simpl.
  - now rewrite String.eqb_refl.
  - destruct (String.eqb_spec k key); [congruence|now rewrite IH].
Qed.

Lemma obj_find_None o key : obj_find o key = None <-> key ∉ map fst o.
Proof.
  induction o as [|[k w] o IH]; simpl.
  - split; [intros _; apply not_elem_of_nil|reflexivity].
  - rewrite not_elem_of_cons.
    destruct (String.eqb_spec k key) as [->|Hk].
    + split; [discriminate|intros [H _]; congruence].
    + rewrite IH. split; [intros H; split; [congruence|exact H]|intros [_ H]; exact H].
Qed.

Lemma obj_find_Some o key v :
  unique_keys o -> (obj_find o key = Some v <-> (key, v) ∈ o).
Proof.
  unfold unique_keys.
  induction o as [|[k w] o IH]; simpl; intros Hnd.
  - split; [discriminate|intros H; inversion H].
  - apply NoDup_cons in Hnd as [Hk Hnd]. rewrite elem_of_cons.
    destruct (String.eqb_spec k key) as [->|Hne].
    + split.
      * intros [= ->]. now left.
      * intros [[= ->]|Hin]; [reflexivity|].
        exfalso. apply Hk. apply list_elem_of_fmap. now exists (key, v).
    + rewrite (IH Hnd). split; [now right|].
      intros [[= -> ->]|Hin]; [congruence|exact Hin].
Qed.

Lemma obj_find_perm o o' key :
  unique_keys o -> o ≡ₚ o' -> obj_find o key = obj_find o' key.
Proof.
  intros Hnd Hperm.
  assert (Hnd' : unique_keys o').
  { unfold unique_keys in *. now rewrite <- Hperm. }
  destruct (obj_find o key) as [v|] eqn:Hfind.
  - symmetry. apply (obj_find_Some _ _ _ Hnd').
    rewrite <- Hperm. now apply (obj_find_Some _ _ _ Hnd).
  - symmetry. apply obj_find_None. rewrite <- Hperm. now apply obj_find_None.
Qed.

Section AccessorProperties.

Variable emplace_new : string -> JsonValue -> JsonObject -> JsonObject.

Hypothesis emplace_new_perm :
  forall key v o, emplace_new key v o ≡ₚ (key, v) :: o.

Lemma emplace_new_unique key v o :
  unique_keys o -> obj_find o key = None -> unique_keys (emplace_new key v o).
Proof.
  unfold unique_keys. intros Hnd Hnone.
  rewrite (emplace_new_perm key v o). simpl.
  apply NoDup_cons. split; [now apply obj_find_None|exact Hnd].
Qed.

Lemma obj_assign_find_eq o key v :
  unique_keys o -> obj_find (obj_assign emplace_new o key v) key = Some v.
Proof.
  intros Hnd. unfold obj_assign, obj_index.
  destruct (obj_find o key) as [w|] eqn:Hfind; simpl.
  - apply obj_find_store_eq. congruence.
  - apply obj_find_store_eq.
    rewrite (obj_find_perm _ ((key, JNull) :: o));
      [|now apply emplace_new_unique|apply emplace_new_perm].
    simpl. now rewrite String.eqb_refl.
Qed.

Lemma obj_assign_find_ne o key key' v :
  unique_keys o -> key' <> key ->
  obj_find (obj_assign emplace_new o key v) key' = obj_find o key'.
Proof.
  intros Hnd Hne. unfold obj_assign, obj_index.
  rewrite obj_find_store_ne by exact Hne.
  destruct (obj_find o key) as [w|] eqn:Hfind; simpl; [reflexivity|].
  rewrite (obj_find_perm _ ((key, JNull) :: o));
    [|now apply emplace_new_unique|apply emplace_new_perm].
  simpl. destruct (String.eqb_spec key key'); [congruence|reflexivity].
Qed.

Lemma obj_assign_unique o key v :
  unique_keys o -> unique_keys (obj_assign emplace_new o key v).
Proof.
  intros Hnd. unfold obj_assign, obj_index, unique_keys.
  rewrite obj_store_keys.
  destruct (obj_find o key) as [w|] eqn:Hfind; simpl; [exact Hnd|].
  now apply emplace_new_unique.
Qed.

Lemma obj_assign_length o key v :
  length (obj_assign emplace_new o key v)
  = match obj_find o key with
    | Some _ => length o
    | None => S (length o)
    end.
Proof.
  unfold obj_assign, obj_index.
  rewrite <- (length_map fst (obj_store _ _ _)), obj_store_keys, length_map.
  destruct (obj_find o key); simpl; [reflexivity|].
  now rewrite (emplace_new_perm key JNull o).
Qed.

(** X2. [set(key, value)] on an object whose keys are distinct: afterwards
    the const [operator[]] returns [value] for [key], [has_key(key)]
    holds, every other key reads as before, the keys are still distinct,
    and [size()] grew by one exactly when the key was new. *)
Theorem set_then_lookup (o : JsonObject) (key : string) (value : JsonValue) :
  unique_keys o ->
  exists o',
    set emplace_new (JObject o) key value = Return (JObject o')
    /\ operator_index_const (JObject o') key = Return value
    /\ has_key (JObject o') key = true
    /\ (forall key', key' <> key ->
          operator_index_const (JObject o') key'
          = operator_index_const (JObject o) key')
    /\ unique_keys o'
    /\ value_size (JObject o')
       = value_size (JObject o) + (if has_key (JObject o) key then 0 else 1).
Proof.
  intros Hnd. exists (obj_assign emplace_new o key value).
  split; [reflexivity|].
  split; [simpl; now rewrite obj_assign_find_eq|].
  split; [simpl; now rewrite obj_assign_find_eq|].
  split; [intros key' Hne; simpl; now rewrite obj_assign_find_ne|].
  split; [now apply obj_assign_unique|].
  simpl. rewrite obj_assign_length.
  destruct (obj_find o key); lia.
Qed.

(** X3. Assigning twice to the same key is assigning the last value once:
    the node keeps the place it took at the first assignment. *)
Theorem assign_twice_keeps_last (o : JsonObject) (key : string) (v1 v2 : JsonValue) :
  unique_keys o ->
  obj_assign emplace_new (obj_assign emplace_new o key v1) key v2
  = obj_assign emplace_new o key v2.
Proof.
  intros Hnd.
  unfold obj_assign at 1. unfold obj_index.
  rewrite obj_assign_find_eq by exact Hnd. simpl.
  unfold obj_assign. apply obj_store_store.
Qed.

End AccessorProperties.

Lemma set_then_lookup_witness :
  exists o',
    set emplace_front (JObject [("a", JNull)]) "b" (JBool true) = Return (JObject o')
    /\ operator_index_const (JObject o') "b" = Return (JBool true)
    /\ has_key (JObject o') "b" = true
    /\ (forall key', key' <> "b" ->
          operator_index_const (JObject o') key'
          = operator_index_const (JObject [("a", JNull)]) key')
    /\ unique_keys o'
    /\ value_size (JObject o')
       = value_size (JObject [("a", JNull)])
         + (if has_key (JObject [("a", JNull)]) "b" then 0 else 1).
Proof.
  apply (set_then_lookup emplace_front
           (fun key v o => Permutation_refl ((key, v) :: o))).
  unfold unique_keys. simpl. apply NoDup_singleton.
Defined.

Lemma assign_twice_keeps_last_witness :
  obj_assign emplace_front (obj_assign emplace_front [("a", JNull)] "b" JNull)
    "b" (JBool true)
  = obj_assign emplace_front [("a", JNull)] "b" (JBool true).
Proof.
  apply (assign_twice_keeps_last emplace_front
           (fun key v o => Permutation_refl ((key, v) :: o))).
  unfold unique_keys. simpl. apply NoDup_singleton.
Defined.

(** X4. Array access is bounds-checked: [operator[](index)] returns the
    element at [index] when [index < size()] and throws otherwise; after
    [push_back(value)] the size is one more, the new last index reads
    [value] and every earlier index reads as before.  On a value that is
    not an array both calls throw. *)
Theorem array_index_bounds (arr : JsonArray) (value : JsonValue) :
  (forall index, (index < length arr)%nat ->
     exists v, arr !! index = Some v /\ operator_at (JArray arr) index = Return v)
  /\ (forall index, (length arr <= index)%nat ->
        operator_at (JArray arr) index = Throw "Array index out of bounds")
  /\ (exists self',
        push_back (JArray arr) value = Return self'
        /\ value_size self' = value_size (JArray arr) + 1
        /\ operator_at self' (length arr) = Return value
        /\ forall index, (index < length arr)%nat ->
             operator_at self' index = operator_at (JArray arr) index)
  /\ (forall self index, is_array self = false ->
        operator_at self index = Throw "JsonValue is not an array"
        /\ push_back self value = Throw "JsonValue is not an array").
Proof.
  repeat split.
  - intros index Hlt. simpl.
    destruct (Nat.leb_spec (length arr) index); [lia|].
    destruct (lookup_lt_is_Some_2 arr index Hlt) as [v Hv].
    exists v. split; [exact Hv|]. now rewrite Hv.
  - intros index Hge. simpl.
    destruct (Nat.leb_spec (length arr) index); [reflexivity|lia].
  - exists (JArray (arr ++ [value])%list). split; [reflexivity|].
    split; [simpl; rewrite length_app; simpl; lia|].
    split.
    + simpl. rewrite length_app. simpl.
      destruct (Nat.leb_spec (length arr + 1) (length arr)); [lia|].
      now rewrite list_lookup_middle.
    + intros index Hlt. simpl. rewrite length_app. simpl.
      destruct (Nat.leb_spec (length arr + 1) index); [lia|].
      destruct (Nat.leb_spec (length arr) index); [lia|].
      now rewrite lookup_app_l by lia.
  - destruct self; simpl in *; congruence.
  - destruct self; simpl in *; congruence.
Qed.


(** *** Strings: what the parser reads back from what the serializer wrote *)

(** The escapes [escape_string] writes with a single letter. *)
Definition simple_escape (c : ascii) : bool :=
  Ascii.eqb c dquote || Ascii.eqb c "\" || Ascii.eqb c backspace
  || Ascii.eqb c formfeed || Ascii.eqb c nl || Ascii.eqb c cr || Ascii.eqb c tab.

(** What [decode_string] makes of the escape of [c]: the character itself
    when it is written plainly or with a one-letter escape; [?] for the
    other control characters; [?] followed by the last four of the eight
    hexadecimal digits for a byte above 127. *)
Definition read_back (c : ascii) : string :=
  if char_value c <? 0 then "?" +:+ hex_digits 4 (2 ^ 16 + char_value c)
  else if (char_value c <? 32) && negb (simple_escape c) then "?"
  else String c "".

Fixpoint read_back_string (s : string) : string :=
  match s with
  | EmptyString => ""
  | String c s' => read_back c +:+ read_back_string s'
  end.

(** The characters that come back unchanged. *)
Definition survives (c : ascii) : bool :=
  (0 <=? char_value c) && ((32 <=? char_value c) || simple_escape c).

Fixpoint all_chars (p : ascii -> bool) (s : string) : bool :=
  match s with
  | EmptyString => true
  | String c s' => p c && all_chars p s'
  end.

Definition escape_char (c : ascii) : list ascii :=
  list_ascii_of_string (escape_string (String c "")).

Definition scan_after (pre : list ascii) (r : outcome (list ascii * list ascii))
  : outcome (list ascii * list ascii) :=
  match r with
  | Return (raw, after) => Return ((pre ++ raw)%list, after)
  | Throw w => Throw w
  end.

Definition decode_after (pre : string) (r : outcome string) : outcome string :=
  match r with
  | Return t => Return (pre +:+ t)
  | Throw w => Throw w
  end.

Lemma list_ascii_of_string_app (a b : string) :
  list_ascii_of_string (a +:+ b)
  = (list_ascii_of_string a ++ list_ascii_of_string b)%list.
Proof.
  induction a as [|x a IH]; [reflexivity|].
  rewrite string_app_cons. simpl. now rewrite IH.
Qed.

Lemma escape_string_cons c s :
  list_ascii_of_string (escape_string (String c s))
  = (escape_char c ++ list_ascii_of_string (escape_string s))%list.
Proof.
  unfold escape_char. cbn [escape_string].
  rewrite !list_ascii_of_string_app. simpl (list_ascii_of_string "").
  now rewrite app_nil_r.
Qed.

Lemma scan_escape_char c l :
  scan_string (escape_char c ++ l) = scan_after (escape_char c) (scan_string l).
Proof.
  destruct c as [[] [] [] [] [] [] [] []];
    (set (e := escape_char _); vm_compute in e; subst e; simpl;
     destruct (scan_string l) as [[raw after]|]; reflexivity).
Qed.

Lemma decode_escape_char c l :
  decode_string (escape_char c ++ l) = decode_after (read_back c) (decode_string l).
Proof.
  destruct c as [[] [] [] [] [] [] [] []];
    (set (e := escape_char _); vm_compute in e; subst e;
     set (r := read_back _); vm_compute in r; subst r; simpl;
     destruct (decode_string l) as [t|]; reflexivity).
Qed.

Lemma scan_escaped s rest :
  scan_string (list_ascii_of_string (escape_string s) ++ dquote :: rest)
  = Return (list_ascii_of_string (escape_string s), dquote :: rest).
Proof.
  induction s as [|c s IH]; [reflexivity|].
  rewrite escape_string_cons, <- app_assoc, scan_escape_char, IH. reflexivity.
Qed.

Lemma decode_escaped s :
  decode_string (list_ascii_of_string (escape_string s)) = Return (read_back_string s).
Proof.
  induction s as [|c s IH]; [reflexivity|].
  rewrite escape_string_cons, decode_escape_char, IH. reflexivity.
Qed.

Lemma read_back_survivor c : survives c = true -> read_back c = String c "".
Proof.
  destruct c as [[] [] [] [] [] [] [] []]; vm_compute; congruence.
Qed.

Lemma read_back_survivors s : all_chars survives s = true -> read_back_string s = s.
Proof.
  induction s as [|c s IH]; [reflexivity|].
  simpl. intros [Hc Hs]%andb_prop.
  rewrite (read_back_survivor c Hc), (IH Hs). reflexivity.
Qed.

(** X5. Parsing the text [serialize_string] wrote for [s] always returns
    and consumes exactly that text; the string read is [s] when every
    character of [s] is printable ASCII (32..127) or one of quote,
    backslash, backspace, form feed, new line, carriage return, tab.
    Every other control character comes back as [?], and every byte above
    127 as [?] followed by four hexadecimal digits. *)
Theorem string_read_back (s : string) (rest : list ascii) :
  parse_string (list_ascii_of_string (serialize_string s) ++ rest)
  = POk (JString (read_back_string s)) rest
  /\ (all_chars survives s = true -> read_back_string s = s).
Proof.
  split; [|apply read_back_survivors].
  unfold serialize_string, parse_string.
  cbn [list_ascii_of_string app head_is tl].
  replace (Ascii.eqb dquote dquote) with true by reflexivity.
  rewrite list_ascii_of_string_app, <- app_assoc.
  cbn [list_ascii_of_string app].
  rewrite scan_escaped, decode_escaped. reflexivity.
Qed.

(** *** Documents the parser rejects or accepts at its edges *)

Definition all_whitespace (input : list ascii) : bool :=
  forallb is_whitespace input.

Section EdgeProperties.

Variable emplace_new : string -> JsonValue -> JsonObject -> JsonObject.
Variable stod : string -> option float.
Variable config_ : ParserConfig.

Lemma skip_whitespace_simd_prefix ws rest :
  all_whitespace ws = true ->
  skip_whitespace_simd (ws ++ rest) = skip_whitespace_simd rest.
Proof.
  induction ws as [|c ws IH]; [reflexivity|].
  simpl. intros [Hc Hws]%andb_prop. rewrite Hc. auto.
Qed.

Lemma skip_whitespace_all ws :
  all_whitespace ws = true -> skip_whitespace config_ ws = [].
Proof.
  intros Hws. unfold skip_whitespace. simpl.
  pose proof (skip_whitespace_simd_prefix ws [] Hws) as H.
  rewrite app_nil_r in H. simpl in H. rewrite H.
  destruct (use_simd config_), (allow_comments config_), (length ws); reflexivity.
Qed.

Lemma skip_whitespace_is_simd input :
  use_simd config_ = true -> skip_whitespace config_ input = skip_whitespace_simd input.
Proof. intros H. unfold skip_whitespace. simpl. now rewrite H. Qed.

(** X6. A document that is empty or all white space is rejected with
    "Empty JSON document"; the call counts one parse error and no parsed
    document or byte. *)
Theorem empty_document_rejected (stats_ : ParserStats) (json_str : string) :
  all_whitespace (list_ascii_of_string json_str) = true ->
  parse emplace_new stod config_ stats_ json_str
  = (PThrow "Empty JSON document",
     {| documents_parsed := documents_parsed stats_;
        bytes_parsed := bytes_parsed stats_;
        parse_errors := wrap (parse_errors stats_ + 1) |}).
Proof.
  intros Hws. unfold parse, parse_document.
  now rewrite (skip_whitespace_all _ Hws).
Qed.

(** X7. With [use_simd] set, as it is by default, [skip_whitespace] never
    reaches [skip_comments]: a document whose first character after
    white space is a slash is rejected as an unexpected character, whatever
    [allow_comments] says. *)
Theorem comments_rejected_under_simd (stats_ : ParserStats) (ws rest : list ascii) :
  use_simd config_ = true ->
  all_whitespace ws = true ->
  parse emplace_new stod config_ stats_
    (string_of_list_ascii (ws ++ "/"%char :: rest))
  = (PThrow "Unexpected character: /",
     {| documents_parsed := documents_parsed stats_;
        bytes_parsed := bytes_parsed stats_;
        parse_errors := wrap (parse_errors stats_ + 1) |}).
Proof.
  intros Hsimd Hws. unfold parse, parse_document.
  rewrite list_ascii_of_string_of_list_ascii.
  rewrite skip_whitespace_is_simd by exact Hsimd.
  rewrite (skip_whitespace_simd_prefix ws _ Hws).
  cbn [skip_whitespace_simd is_whitespace Ascii.eqb Bool.eqb orb].
  replace (is_whitespace "/") with false by reflexivity.
  cbn [parse_value].
  rewrite skip_whitespace_is_simd by exact Hsimd.
  cbn [skip_whitespace_simd].
  replace (is_whitespace "/") with false by reflexivity.
  reflexivity.
Qed.

(** X8. A document that stops right after its opening brace or bracket
    (white space aside) is not an error: the loops of [parse_object] and
    [parse_array] are simply not entered and the empty container is
    returned and counted as a parsed document. *)
Theorem unterminated_container_accepted (stats_ : ParserStats) (ws : list ascii) :
  all_whitespace ws = true ->
  parse emplace_new stod config_ stats_ (string_of_list_ascii ("{"%char :: ws))
  = (POk (JObject []) [],
     {| documents_parsed := wrap (documents_parsed stats_ + 1);
        bytes_parsed := wrap (bytes_parsed stats_ + Z.of_nat (S (length ws)));
        parse_errors := parse_errors stats_ |})
  /\ parse emplace_new stod config_ stats_ (string_of_list_ascii ("["%char :: ws))
     = (POk (JArray []) [],
        {| documents_parsed := wrap (documents_parsed stats_ + 1);
           bytes_parsed := wrap (bytes_parsed stats_ + Z.of_nat (S (length ws)));
           parse_errors := parse_errors stats_ |}).
Proof.
  intros Hws. split; unfold parse, parse_document;
    rewrite list_ascii_of_string_of_list_ascii;
    rewrite skip_whitespace_token by (reflexivity || discriminate);
    cbn [parse_value length];
    rewrite skip_whitespace_token by (reflexivity || discriminate);
    cbn [Ascii.eqb Bool.eqb];
    rewrite (skip_whitespace_all _ Hws);
    cbn [head_is object_loop array_loop];
    rewrite skip_whitespace_nil; reflexivity.
Qed.

End EdgeProperties.

Lemma empty_document_rejected_witness :
  parse emplace_front stod_integer default_parser_config
    {| documents_parsed := 0; bytes_parsed := 0; parse_errors := 0 |} "  "
  = (PThrow "Empty JSON document",
     {| documents_parsed := 0; bytes_parsed := 0; parse_errors := wrap (0 + 1) |}).
Proof.
  apply (empty_document_rejected emplace_front stod_integer default_parser_config
           {| documents_parsed := 0; bytes_parsed := 0; parse_errors := 0 |} "  ").
  reflexivity.
Defined.

Lemma comments_rejected_under_simd_witness :
  parse emplace_front stod_integer
    {| allow_comments := true; allow_trailing_commas := false; strict_mode := true;
       max_depth := 100; max_string_length := 1024 * 1024; use_simd := true |}
    {| documents_parsed := 0; bytes_parsed := 0; parse_errors := 0 |}
    (string_of_list_ascii ([" "%char] ++ "/"%char :: list_ascii_of_string "/ note"))
  = (PThrow "Unexpected character: /",
     {| documents_parsed := 0; bytes_parsed := 0; parse_errors := wrap (0 + 1) |}).
Proof.
  apply (comments_rejected_under_simd emplace_front stod_integer
           {| allow_comments := true; allow_trailing_commas := false;
              strict_mode := true; max_depth := 100;
              max_string_length := 1024 * 1024; use_simd := true |}
           {| documents_parsed := 0; bytes_parsed := 0; parse_errors := 0 |}
           [" "%char] (list_ascii_of_string "/ note")); reflexivity.
Defined.

Lemma unterminated_container_accepted_witness :
  fst (parse emplace_front stod_integer default_parser_config
         {| documents_parsed := 0; bytes_parsed := 0; parse_errors := 0 |}
         (string_of_list_ascii ("{"%char :: [" "%char])))
  = POk (JObject []) [].
Proof.
  rewrite (proj1 (unterminated_container_accepted emplace_front stod_integer
                    default_parser_config
                    {| documents_parsed := 0; bytes_parsed := 0; parse_errors := 0 |}
                    [" "%char] eq_refl)).
  reflexivity.
Defined.

End Json.

(** ** Request parser, response builder and route table
    (request_parser.hpp, request_parser.cpp) *)

Module Http.
Import Cxx.

(** *** Library routines *)

Definition INT_MIN : Z := - 2 ^ 31.
Definition INT_MAX : Z := 2 ^ 31 - 1.

Definition isxdigit (c : ascii) : bool :=
  isdigit c
  || ((97 <=? code c) && (code c <=? 102))
  || ((65 <=? code c) && (code c <=? 70)).

Definition xdigit_value (c : ascii) : Z :=
  if isdigit c then code c - 48
  else if 97 <=? code c then code c - 87
  else code c - 55.

Fixpoint xdigits_prefix (s : string) : list ascii :=
  match s with
  | String c s' => if isxdigit c then c :: xdigits_prefix s' else []
  | EmptyString => []
  end.

Definition xdigits_value (ds : list ascii) : Z :=
  fold_left (fun acc c => 16 * acc + xdigit_value c) ds 0.

(** [std::stoi(str, nullptr, 16)], as [strtol] does it: leading white
    space, an optional sign, an optional [0x] in front of a digit, then the
    longest run of hexadecimal digits.  No digit: [std::invalid_argument];
    a value that is not an [int]: [std::out_of_range]. *)
Definition stoi16 (str : string) : outcome Z :=
  let s := skip_spaces str in
  let '(negative, s1) :=
    match s with
    | String c t =>
        if Ascii.eqb c "-" then (true, t)
        else if Ascii.eqb c "+" then (false, t)
        else (false, s)
    | EmptyString => (false, s)
    end in
  let s2 :=
    match s1 with
    | String z (String x (String h t)) =>
        if Ascii.eqb z "0" && (Ascii.eqb x "x" || Ascii.eqb x "X") && isxdigit h
        then String h t else s1
    | _ => s1
    end in
  match xdigits_prefix s2 with
  | [] => Throw "stoi"
  | ds =>
      let v := if negative then - xdigits_value ds else xdigits_value ds in
      if (INT_MIN <=? v) && (v <=? INT_MAX) then Return v else Throw "stoi"
  end.

(** [static_cast<char>(n)]. *)
Definition char_of_int (n : Z) : ascii := ascii_of_N (Z.to_N (n mod 256)).

(** The items the loop [while (std::getline(ss, item, delimiter))] sees:
    the pieces between delimiters; at the end of the input an item is
    produced only if at least one character was read for it. *)
Fixpoint getline_items (delimiter : ascii) (item : string) (extracted : bool)
    (input : string) : list string :=
  match input with
  | EmptyString => if extracted then [item] else []
  | String c input' =>
      if Ascii.eqb c delimiter
      then item :: getline_items delimiter "" false input'
      else getline_items delimiter (item +:+ String c "") true input'
  end.

Definition getline_split (input : string) (delimiter : ascii) : list string :=
  getline_items delimiter "" false input.

(** [s.substr(pos)] for [pos <= size()]. *)
Fixpoint drop_chars (n : nat) (s : string) : string :=
  match n, s with
  | O, _ => s
  | S _, EmptyString => EmptyString
  | S k, String _ s' => drop_chars k s'
  end.

(** [s.erase(0, s.find_first_not_of(set))]: everything goes when no other
    character is found. *)
Fixpoint erase_leading (blank : ascii -> bool) (s : string) : string :=
  match s with
  | String c s' => if blank c then erase_leading blank s' else s
  | EmptyString => EmptyString
  end.

(** [s.erase(s.find_last_not_of(set) + 1)]. *)
Fixpoint erase_trailing (blank : ascii -> bool) (s : string) : string :=
  match s with
  | EmptyString => EmptyString
  | String c s' =>
      match erase_trailing blank s' with
      | EmptyString => if blank c then EmptyString else String c EmptyString
      | t => String c t
      end
  end.

(** [s.back()] of a string that is not empty. *)
Fixpoint back (s : string) : option ascii :=
  match s with
  | EmptyString => None
  | String c EmptyString => Some c
  | String _ s' => back s'
  end.

(** *** RequestParser *)

(** [RequestParser::url_decode]. *)
Fixpoint url_decode (encoded : string) : string :=
  match encoded with
  | EmptyString => EmptyString
  | String c rest =>
      if Ascii.eqb c "%" then
        match rest with
        | String h1 (String h2 rest') =>
            match stoi16 (String h1 (String h2 EmptyString)) with
            | Return n => String (char_of_int n) (url_decode rest')
            | Throw _ => String c (url_decode rest)
            end
        | _ => String c (url_decode rest)
        end
      else if Ascii.eqb c "+" then String " " (url_decode rest)
      else String c (url_decode rest)
  end.

(** [RequestParser::split_string]. *)
Definition split_string (str : string) (delimiter : ascii) : list string :=
  getline_split str delimiter.

(** The body of the loops of [fast_split_params] and [fast_split_query]:
    the decoded key and value of a piece, if it has an equals sign. *)
Definition split_pair (pair : string) : option (string * string) :=
  match find_char pair "=" with
  | Some eq_pos =>
      Some (url_decode (substr_to pair eq_pos), url_decode (drop_chars (S eq_pos) pair))
  | None => None
  end.

(** [RequestParser::fast_split_params]: [result[key] = value]. *)
Definition fast_split_params (params_str : string) (result : gmap string string)
  : gmap string string :=
  fold_left
    (fun result pair =>
       match split_pair pair with
       | Some (key, value) => <[key := value]> result
       | None => result
       end)
    (getline_split params_str "&") result.

(** [RequestParser::fast_split_query]: [result[key].push_back(value)]. *)
Definition fast_split_query (query_str : string) (result : gmap string (list string))
  : gmap string (list string) :=
  fold_left
    (fun result pair =>
       match split_pair pair with
       | Some (key, value) => <[key := (default [] (result !! key) ++ [value])%list]> result
       | None => result
       end)
    (getline_split query_str "&") result.

(** [RequestParser::parse_query_string] on [result.query_params]. *)
Definition parse_query_string (query : string) (query_params : gmap string (list string))
  : gmap string (list string) :=
  if empty query then query_params else fast_split_query query query_params.

Definition blank (c : ascii) : bool := Ascii.eqb c " " || Ascii.eqb c tab.

(** [RequestParser::parse_cookies] on [result.cookies]. *)
Definition parse_cookies (cookie_header : string) (cookies : gmap string string)
  : gmap string string :=
  if empty cookie_header then cookies
  else
    fold_left
      (fun cookies cookie_pair =>
         let trimmed := erase_trailing blank (erase_leading blank cookie_pair) in
         match find_char trimmed "=" with
         | Some eq_pos =>
             <[substr_to trimmed eq_pos := url_decode (drop_chars (S eq_pos) trimmed)]> cookies
         | None => cookies
         end)
      (getline_split cookie_header ";") cookies.

(** [RequestParser::parse_form_data] on [result.form_data]. *)
Definition parse_form_data (body content_type : string) (form_data : gmap string string)
  : gmap string string :=
  if empty body then form_data
  else if contains content_type "application/x-www-form-urlencoded"
  then fast_split_params body form_data
  else form_data.

(** [RequestParser::parse_headers] on [result.headers]: [request] lists the
    fields of the message in the order of iteration, name and value. *)
Definition parse_headers (request : list (string * string)) (headers : gmap string string)
  : gmap string string :=
  fold_left
    (fun headers header => <[transform_tolower (fst header) := snd header]> headers)
    request headers.

Definition json_blank (c : ascii) : bool :=
  Ascii.eqb c " " || Ascii.eqb c tab || Ascii.eqb c nl || Ascii.eqb c cr.

(** [RequestParser::is_json_content]. *)
Definition is_json_content (body : string) : bool :=
  if empty body then false
  else
    let trimmed := erase_trailing json_blank (erase_leading json_blank body) in
    match trimmed, back trimmed with
    | String front _, Some last =>
        (Ascii.eqb front "{" && Ascii.eqb last "}")
        || (Ascii.eqb front "[" && Ascii.eqb last "]")
    | _, _ => false
    end.


(** *** Properties of the request parser *)

Lemma tolower_idempotent c : tolower (tolower c) = tolower c.
Proof. destruct c as [[] [] [] [] [] [] [] []]; reflexivity. Qed.

Lemma transform_tolower_idempotent s :
  transform_tolower (transform_tolower s) = transform_tolower s.
Proof.
  induction s as [|c s IH]; [reflexivity|].
  simpl. now rewrite tolower_idempotent, IH.
Qed.

Lemma parse_headers_app l1 l2 (h : gmap string string) :
  parse_headers (l1 ++ l2) h = parse_headers l2 (parse_headers l1 h).
Proof. unfold parse_headers. apply fold_left_app. Qed.

Lemma parse_headers_other request key : forall h : gmap string string,
  Forall (fun header => transform_tolower (fst header) <> key) request ->
  parse_headers request h !! key = h !! key.
Proof.
  induction request as [|[n v] request IH]; intros h Hall; [reflexivity|].
  apply Forall_cons in Hall as [Hn Hall]. simpl in Hn.
  change (parse_headers ((n, v) :: request) h)
    with (parse_headers request (<[transform_tolower n := v]> h)).
  rewrite IH by exact Hall. now rewrite lookup_insert_ne.
Qed.

(** X9. Header names are stored in lower case and the last field of a
    name wins: after [parse_headers], the lower-cased name of a field
    maps to the value of the last field whose name equals it up to case.
    No key with an upper-case letter is ever stored, so a lookup under the
    spelling received (say [Content-Type]) finds nothing. *)
Theorem headers_lowercased_last_wins
    (before after : list (string * string)) (name value : string) :
  Forall (fun header => transform_tolower (fst header) <> transform_tolower name) after ->
  parse_headers (before ++ (name, value) :: after) ∅ !! transform_tolower name
  = Some value
  /\ (forall key, transform_tolower key <> key ->
        parse_headers (before ++ (name, value) :: after) ∅ !! key = None).
Proof.
  intros Hafter. split.
  - rewrite parse_headers_app.
    change (parse_headers ((name, value) :: after) ?h)
      with (parse_headers after (<[transform_tolower name := value]> h)).
    rewrite parse_headers_other by exact Hafter.
    apply lookup_insert_eq.
  - intros key Hkey. rewrite parse_headers_other; [apply lookup_empty|].
    apply Forall_forall. intros [n v] _ Heq. simpl in Heq.
    apply Hkey. rewrite <- Heq. apply transform_tolower_idempotent.
Qed.

Lemma headers_lowercased_last_wins_witness :
  parse_headers
    ([("Host", "a")] ++ ("Content-Type", "text/html") :: [("Accept", "*")]) ∅
    !! transform_tolower "Content-Type" = Some "text/html"
  /\ (forall key, transform_tolower key <> key ->
        parse_headers
          ([("Host", "a")] ++ ("Content-Type", "text/html") :: [("Accept", "*")]) ∅
          !! key = None).
Proof.
  apply (headers_lowercased_last_wins [("Host", "a")] [("Accept", "*")]
           "Content-Type" "text/html").
  repeat constructor. simpl. discriminate.
Defined.

(** Percent-encoding of every byte, with lower- or upper-case digits. *)
Definition hex_char (upper : bool) (d : Z) : ascii :=
  if d <? 10 then ascii_of_N (Z.to_N (48 + d))
  else if upper then ascii_of_N (Z.to_N (55 + d))
  else ascii_of_N (Z.to_N (87 + d)).

Fixpoint percent_encode (upper : bool) (s : string) : string :=
  match s with
  | EmptyString => EmptyString
  | String c s' =>
      String "%" (String (hex_char upper (code c / 16))
                    (String (hex_char upper (code c mod 16)) (percent_encode upper s')))
  end.

Lemma stoi16_hex_pair upper c :
  stoi16 (String (hex_char upper (code c / 16))
            (String (hex_char upper (code c mod 16)) ""))
  = Return (code c).
Proof.
  destruct upper; destruct c as [[] [] [] [] [] [] [] []];
    vm_compute; reflexivity.
Qed.

Lemma char_of_int_code c : char_of_int (code c) = c.
Proof. destruct c as [[] [] [] [] [] [] [] []]; vm_compute; reflexivity. Qed.

Lemma url_decode_percent upper c rest :
  url_decode (String "%" (String (hex_char upper (code c / 16))
                            (String (hex_char upper (code c mod 16)) rest)))
  = String c (url_decode rest).
Proof.
  cbn [url_decode]. replace (Ascii.eqb "%" "%") with true by reflexivity.
  now rewrite stoi16_hex_pair, char_of_int_code.
Qed.

(** X10. [url_decode] undoes percent-encoding: a string in which every
    byte is written as [%] and its two hexadecimal digits, in either case,
    decodes to the original bytes. *)
Theorem url_decode_percent_encode (upper : bool) (s : string) :
  url_decode (percent_encode upper s) = s.
Proof.
  induction s as [|c s IH]; [reflexivity|].
  cbn [percent_encode]. rewrite url_decode_percent. now rewrite IH.
Qed.

Fixpoint no_char (p : ascii -> bool) (s : string) : bool :=
  match s with
  | EmptyString => true
  | String c s' => negb (p c) && no_char p s'
  end.

Definition is_escape_char (c : ascii) : bool := Ascii.eqb c "%" || Ascii.eqb c "+".

Lemma url_decode_length_bound n : forall s,
  (String.length s <= n)%nat -> (String.length (url_decode s) <= String.length s)%nat.
Proof.
  induction n as [|n IH]; intros s Hlen.
  - destruct s; simpl in *; lia.
  - destruct s as [|c rest]; [simpl; lia|].
    simpl in Hlen. cbn [url_decode].
    assert (Hrest : (String.length (url_decode rest) <= String.length rest)%nat)
      by (apply IH; lia).
    destruct (Ascii.eqb c "%").
    + destruct rest as [|h1 [|h2 rest']]; try (simpl in *; lia).
      destruct (stoi16 _); [|simpl in *; lia].
      assert (String.length (url_decode rest') <= String.length rest')%nat
        by (apply IH; simpl in *; lia).
      simpl in *. lia.
    + destruct (Ascii.eqb c "+"); simpl in *; lia.
Qed.

(** X11. [url_decode] never lengthens its input, and leaves unchanged any
    string without a percent or a plus sign. *)
Theorem url_decode_shrinks (s : string) :
  (String.length (url_decode s) <= String.length s)%nat
  /\ (no_char is_escape_char s = true -> url_decode s = s).
Proof.
  split; [now apply (url_decode_length_bound (String.length s))|].
  induction s as [|c s IH]; [reflexivity|].
  cbn [no_char url_decode]. unfold is_escape_char at 1.
  intros [Hc Hs]%andb_prop. apply negb_true_iff, orb_false_elim in Hc as [H1 H2].
  rewrite H1, H2. now rewrite IH.
Qed.

Definition is_sign (c : ascii) : bool := Ascii.eqb c "+" || Ascii.eqb c "-".

Lemma xdigit_facts c :
  isxdigit c = true ->
  isspace c = false /\ Ascii.eqb c "+" = false /\ Ascii.eqb c "-" = false
  /\ 0 <= xdigit_value c <= 15.
Proof.
  destruct c as [[] [] [] [] [] [] [] []]; try discriminate;
    intros _; vm_compute; repeat split; congruence.
Qed.

(** X12. Malformed escapes.  A percent sign with fewer than two characters
    after it is copied.  When the character after it is neither a
    hexadecimal digit, nor white space, nor a sign, the percent sign is
    copied and decoding resumes at that character.  When the first
    character is a hexadecimal digit and the second is not, [std::stoi]
    converts the first alone, yet both are consumed: the second character
    is lost. *)
Theorem url_decode_malformed_escape (h1 h2 : ascii) (rest : string) :
  url_decode "%" = "%"
  /\ url_decode (String "%" (String h1 "")) = String "%" (url_decode (String h1 ""))
  /\ (isxdigit h1 = false -> isspace h1 = false -> is_sign h1 = false ->
      url_decode (String "%" (String h1 (String h2 rest)))
      = String "%" (url_decode (String h1 (String h2 rest))))
  /\ (isxdigit h1 = true -> isxdigit h2 = false ->
      url_decode (String "%" (String h1 (String h2 rest)))
      = String (char_of_int (xdigit_value h1)) (url_decode rest)).
Proof.
  split; [reflexivity|]. split; [reflexivity|]. split.
  - intros Hx Hs Hg.
    apply orb_false_elim in Hg as [Hplus Hminus].
    assert (Hthrow : stoi16 (String h1 (String h2 "")) = Throw "stoi").
    { unfold stoi16. cbn [skip_spaces]. rewrite Hs, Hminus, Hplus.
      cbn [xdigits_prefix]. now rewrite Hx. }
    cbn [url_decode]. replace (Ascii.eqb "%" "%") with true by reflexivity.
    now rewrite Hthrow.
  - intros Hx1 Hx2.
    destruct (xdigit_facts h1 Hx1) as (Hs & Hplus & Hminus & Hrange).
    assert (Hret : stoi16 (String h1 (String h2 ""))
                   = Return (xdigit_value h1)).
    { unfold stoi16. cbn [skip_spaces]. rewrite Hs, Hminus, Hplus.
      cbn [xdigits_prefix]. rewrite Hx1, Hx2.
      unfold xdigits_value. cbn [fold_left].
      replace (16 * 0 + xdigit_value h1) with (xdigit_value h1) by lia.
      unfold INT_MIN, INT_MAX.
      destruct (Z.leb_spec (- 2 ^ 31) (xdigit_value h1)); [|lia].
      destruct (Z.leb_spec (xdigit_value h1) (2 ^ 31 - 1)); [reflexivity|lia]. }
    cbn [url_decode]. replace (Ascii.eqb "%" "%") with true by reflexivity.
    now rewrite Hret.
Qed.

Lemma url_decode_malformed_escape_witness :
  url_decode "%zz" = "%zz" /\ url_decode "%1gx" = String (char_of_int 1) "x".
Proof.
  split.
  - apply (proj1 (proj2 (proj2 (url_decode_malformed_escape "z" "z" "")))); reflexivity.
  - apply (proj2 (proj2 (proj2 (url_decode_malformed_escape "1" "g" "x")))); reflexivity.
Defined.


Fixpoint all_chars_blank (blank : ascii -> bool) (s : string) : bool :=
  match s with
  | EmptyString => true
  | String c s' => blank c && all_chars_blank blank s'
  end.

(** The decoded pairs of the pieces of [str] that have an equals sign, in
    arrival order, and the values among them given for [key]. *)
Definition pairs_of (str : string) : list (string * string) :=
  omap split_pair (getline_split str "&").

Definition values_for (key : string) (pairs : list (string * string)) : list string :=
  (filter (fun pair => pair.1 = key) pairs).*2.

Lemma values_for_cons key k v pairs :
  values_for key ((k, v) :: pairs)
  = if decide (k = key) then v :: values_for key pairs else values_for key pairs.
Proof.
  unfold values_for. destruct (decide (k = key)) as [Heq|Hne].
  - now rewrite filter_cons_True.
  - now rewrite filter_cons_False.
Qed.

Lemma fast_split_query_lookup pieces key : forall result : gmap string (list string),
  fold_left
    (fun result pair =>
       match split_pair pair with
       | Some (key, value) => <[key := (default [] (result !! key) ++ [value])%list]> result
       | None => result
       end) pieces result !! key
  = match values_for key (omap split_pair pieces) with
    | [] => result !! key
    | vs => Some (default [] (result !! key) ++ vs)%list
    end.
Proof.
  induction pieces as [|piece pieces IH]; intros result; [reflexivity|].
  cbn [fold_left omap list_omap]. rewrite IH.
  destruct (split_pair piece) as [[k v]|]; [|reflexivity].
  rewrite values_for_cons.
  destruct (decide (k = key)) as [->|Hne].
  - rewrite lookup_insert_eq. simpl.
    destruct (values_for key (omap split_pair pieces)); [reflexivity|].
    now rewrite <- app_assoc.
  - now rewrite lookup_insert_ne.
Qed.

Lemma fast_split_params_lookup pieces key : forall result : gmap string string,
  fold_left
    (fun result pair =>
       match split_pair pair with
       | Some (key, value) => <[key := value]> result
       | None => result
       end) pieces result !! key
  = match last (values_for key (omap split_pair pieces)) with
    | Some v => Some v
    | None => result !! key
    end.
Proof.
  induction pieces as [|piece pieces IH]; intros result; [reflexivity|].
  cbn [fold_left omap list_omap]. rewrite IH.
  destruct (split_pair piece) as [[k v]|]; [|reflexivity].
  rewrite values_for_cons.
  destruct (decide (k = key)) as [->|Hne].
  - rewrite lookup_insert_eq, last_cons.
    destruct (last (values_for key (omap split_pair pieces))); reflexivity.
  - now rewrite lookup_insert_ne.
Qed.

(** X13. Repeated parameters.  In [query_params] a key maps to all the
    values given for it, decoded, in the order of arrival; a key given no
    value is absent; pieces without an equals sign are skipped.  In
    [form_data], filled by [fast_split_params], only the last value of a
    key is kept. *)
Theorem repeated_parameters (str key : string) :
  fast_split_query str ∅ !! key
  = match values_for key (pairs_of str) with
    | [] => None
    | vs => Some vs
    end
  /\ fast_split_params str ∅ !! key = last (values_for key (pairs_of str)).
Proof.
  split.
  - unfold fast_split_query. rewrite fast_split_query_lookup.
    fold (pairs_of str). rewrite lookup_empty. reflexivity.
  - unfold fast_split_params. rewrite fast_split_params_lookup.
    fold (pairs_of str). rewrite lookup_empty.
    destruct (last _); reflexivity.
Qed.

Lemma erase_leading_blank_prefix blank ws s :
  all_chars_blank blank ws = true ->
  erase_leading blank (ws +:+ s) = erase_leading blank s.
Proof.
  induction ws as [|c ws IH]; [reflexivity|].
  simpl. intros [Hc Hws]%andb_prop.
  change (String c ws +:+ s) with (String c (ws +:+ s)).
  cbn [erase_leading]. rewrite Hc. auto.
Qed.

Lemma erase_trailing_all_blank blank ws :
  all_chars_blank blank ws = true -> erase_trailing blank ws = "".
Proof.
  induction ws as [|c ws IH]; [reflexivity|].
  simpl. intros [Hc Hws]%andb_prop. now rewrite IH, Hc.
Qed.

Lemma erase_trailing_blank_suffix blank ws c s :
  all_chars_blank blank ws = true -> blank c = false ->
  erase_trailing blank (s +:+ String c ws) = s +:+ String c "".
Proof.
  intros Hws Hc. induction s as [|a s IH].
  - change ("" +:+ String c ws) with (String c ws). cbn [erase_trailing].
    rewrite (erase_trailing_all_blank _ _ Hws), Hc. reflexivity.
  - change (String a s +:+ String c ws) with (String a (s +:+ String c ws)).
    cbn [erase_trailing]. rewrite IH.
    change (String a s +:+ String c "") with (String a (s +:+ String c "")).
    destruct s; reflexivity.
Qed.

Lemma back_snoc s c : back (s +:+ String c "") = Some c.
Proof.
  induction s as [|a s IH]; [reflexivity|].
  change (String a s +:+ String c "") with (String a (s +:+ String c "")).
  cbn [back]. rewrite IH. destruct s; reflexivity.
Qed.

(** X14. [is_json_content] looks only at the first and the last character
    that is not white space: whatever stands between an opening brace and
    a closing brace, or between brackets, the body is flagged as JSON; a
    brace closed by a bracket is not, nor is a body of white space only. *)
Theorem is_json_content_brackets_only (ws1 ws2 inner : string) :
  all_chars_blank json_blank ws1 = true ->
  all_chars_blank json_blank ws2 = true ->
  is_json_content (ws1 +:+ String "{" (inner +:+ String "}" ws2)) = true
  /\ is_json_content (ws1 +:+ String "[" (inner +:+ String "]" ws2)) = true
  /\ is_json_content (ws1 +:+ String "{" (inner +:+ String "]" ws2)) = false
  /\ is_json_content ws1 = false.
Proof.
  intros H1 H2.
  assert (Hgen : forall o c : ascii, json_blank o = false -> json_blank c = false ->
            is_json_content (ws1 +:+ String o (inner +:+ String c ws2))
            = (Ascii.eqb o "{" && Ascii.eqb c "}") || (Ascii.eqb o "[" && Ascii.eqb c "]")).
  { intros o c Ho Hc. unfold is_json_content. cbv zeta.
    assert (Hne : empty (ws1 +:+ String o (inner +:+ String c ws2)) = false)
      by (destruct ws1; reflexivity).
    rewrite Hne, (erase_leading_blank_prefix _ _ _ H1).
    cbn [erase_leading]. rewrite Ho.
    change (String o (inner +:+ String c ws2)) with (String o inner +:+ String c ws2).
    rewrite (erase_trailing_blank_suffix _ _ _ _ H2 Hc).
    rewrite Json.string_app_cons. cbv beta iota.
    rewrite <- Json.string_app_cons, back_snoc. reflexivity. }
  repeat split; try (rewrite Hgen by reflexivity; reflexivity).
  unfold is_json_content. cbv zeta. destruct (empty ws1); [reflexivity|].
  pose proof (erase_leading_blank_prefix json_blank ws1 "" H1) as He.
  rewrite Json.string_app_nil_r in He. now rewrite He.
Qed.

Lemma is_json_content_brackets_only_witness :
  is_json_content (" " +:+ String "{" ("not json" +:+ String "}" " ")) = true.
Proof.
  apply (is_json_content_brackets_only " " " " "not json"); reflexivity.
Defined.


(** *** ResponseBuilder *)

(** [ResponseBuilder::ResponseData]; [headers] lists the nodes of the
    [std::unordered_map] in iteration order, [cookies] is the vector. *)
Record ResponseData : Type := {
  status_code : Z;
  status_message : string;
  headers : list (string * string);
  cookies : list (string * string);
  body : string
}.

(** [ResponseBuilder::add_cookie]: the text stored with the cookie. *)
Definition cookie_value (name value path domain : string) (max_age : Z)
    (secure http_only : bool) : string :=
  name +:+ "=" +:+ value
  +:+ (if empty path then "" else "; Path=" +:+ path)
  +:+ (if empty domain then "" else "; Domain=" +:+ domain)
  +:+ (if 0 <=? max_age then "; Max-Age=" +:+ to_string max_age else "")
  +:+ (if secure then "; Secure" else "")
  +:+ (if http_only then "; HttpOnly" else "").

Definition add_cookie (response : ResponseData) (name value path domain : string)
    (max_age : Z) (secure http_only : bool) : ResponseData :=
  {| status_code := status_code response;
     status_message := status_message response;
     headers := headers response;
     cookies := (cookies response
                 ++ [(name, cookie_value name value path domain max_age secure http_only)])%list;
     body := body response |}.

(** The header fields of a Boost.Beast message, in order.  Field names are
    compared without regard to case, and [set(name, value)] removes every
    field of that name before it appends the new one. *)
Definition iequals (a b : string) : bool :=
  String.eqb (transform_tolower a) (transform_tolower b).

Definition fields_set (fields : list (string * string)) (name value : string)
  : list (string * string) :=
  (List.filter (fun field => negb (iequals (fst field) name)) fields
   ++ [(name, value)])%list.

(** [ResponseBuilder::build_response], lines 245 to 257: the header fields
    of the response when [prepare_payload()] is reached. *)
Definition build_response_fields (data : ResponseData) : list (string * string) :=
  let fields := fields_set [] "Server" "PySpeed/1.0" in
  let fields := fields_set fields "Content-Length" (to_string (size (body data))) in
  let fields :=
    fold_left (fun fields header => fields_set fields (fst header) (snd header))
      (headers data) fields in
  fold_left
    (fun fields cookie =>
       fields_set fields "Set-Cookie" (fst cookie +:+ "=" +:+ snd cookie +:+ "; Path=/"))
    (cookies data) fields.

(** The [Set-Cookie] fields among [fields]. *)
Definition set_cookie_fields (fields : list (string * string)) : list (string * string) :=
  List.filter (fun field => iequals (fst field) "Set-Cookie") fields.

(** [ResponseBuilder::get_status_message]. *)
Definition get_status_message (status_code : Z) : string :=
  if status_code =? 200 then "OK"
  else if status_code =? 201 then "Created"
  else if status_code =? 204 then "No Content"
  else if status_code =? 301 then "Moved Permanently"
  else if status_code =? 302 then "Found"
  else if status_code =? 304 then "Not Modified"
  else if status_code =? 400 then "Bad Request"
  else if status_code =? 401 then "Unauthorized"
  else if status_code =? 403 then "Forbidden"
  else if status_code =? 404 then "Not Found"
  else if status_code =? 405 then "Method Not Allowed"
  else if status_code =? 500 then "Internal Server Error"
  else if status_code =? 502 then "Bad Gateway"
  else if status_code =? 503 then "Service Unavailable"
  else "Unknown".

(** *** RouteParser *)

Record Route : Type := {
  pattern : string;
  handler_id : string;
  param_names : list string;
  has_wildcards : bool
}.


Section Routes.

(** [RouteParser::match_pattern] and [extract_param_names] are built on
    [std::regex]: [match_pattern pattern path] is the parameters extracted
    when the path matches, [None] when it does not. *)
Variable match_pattern : string -> string -> option (gmap string string).
Variable extract_param_names : string -> list string.

(** [RouteParser::add_route]. *)
Definition add_route (routes_ : list Route) (route_pattern handler : string) : list Route :=
  (routes_ ++ [ {| pattern := route_pattern;
                   handler_id := handler;
                   param_names := extract_param_names route_pattern;
                   has_wildcards :=
                     match find_char route_pattern "{" with
                     | Some _ => true
                     | None => false
                     end |} ])%list.

(** [RouteParser::remove_route]. *)
Definition remove_route (routes_ : list Route) (route_pattern : string) : list Route :=
  List.filter (fun route => negb (String.eqb (pattern route) route_pattern)) routes_.



End Routes.

(** *** Properties of the response builder *)

Lemma set_cookie_fields_set fields value :
  set_cookie_fields (fields_set fields "Set-Cookie" value) = [("Set-Cookie", value)].
Proof.
  unfold set_cookie_fields, fields_set.
  rewrite List.filter_app.
  replace (List.filter _ (List.filter _ fields)) with (@nil (string * string)).
  - reflexivity.
  - symmetry. induction fields as [|f fields IH]; [reflexivity|].
    simpl. destruct (iequals (fst f) "Set-Cookie") eqn:Hf; simpl; [exact IH|].
    now rewrite Hf.
Qed.

(** X15. [build_response] adds the cookies with [set], which replaces the
    field of the same name: however many cookies the response data holds,
    the response carries a single [Set-Cookie] field, that of the last
    cookie; the earlier ones are dropped.  Its value is the stored cookie
    text prefixed with the name and followed by [; Path=/], so a cookie
    recorded by [add_cookie] bears its name twice. *)
Theorem only_last_cookie_is_sent (data : ResponseData)
    (name value path domain : string) (max_age : Z) (secure http_only : bool) :
  (forall earlier text,
     cookies data = (earlier ++ [(name, text)])%list ->
     set_cookie_fields (build_response_fields data)
     = [("Set-Cookie", name +:+ "=" +:+ text +:+ "; Path=/")])
  /\ set_cookie_fields
       (build_response_fields
          (add_cookie data name value path domain max_age secure http_only))
     = [("Set-Cookie",
         name +:+ "=" +:+ cookie_value name value path domain max_age secure http_only
         +:+ "; Path=/")].
Proof.
  assert (Hlast : forall d earlier text,
            cookies d = (earlier ++ [(name, text)])%list ->
            set_cookie_fields (build_response_fields d)
            = [("Set-Cookie", name +:+ "=" +:+ text +:+ "; Path=/")]).
  { intros d earlier text Hcookies. unfold build_response_fields.
    rewrite Hcookies, fold_left_app. cbn [fold_left fst snd].
    apply set_cookie_fields_set. }
  split; [apply Hlast|].
  apply (Hlast _ (cookies data)). reflexivity.
Qed.

End Http.

(** ** Static file handler (static_handler.hpp, static_handler.cpp) *)

Module Static.
Import Cxx.

(** [StaticFileHandler::Config]. *)
Record Config : Type := {
  root_directory : string;
  max_cache_size_mb : Z;
  max_file_size_mb : Z;
  cache_ttl : Z;
  enable_compression : bool;
  enable_range_requests : bool;
  enable_etags : bool;
  compression_threshold : Z;
  compression_types : list string;
  allow_directory_traversal : bool;
  forbidden_extensions : list string;
  hidden_prefixes : list string
}.

Definition default_config : Config := {|
  root_directory := "./static";
  max_cache_size_mb := 512;
  max_file_size_mb := 100;
  cache_ttl := 60;
  enable_compression := true;
  enable_range_requests := true;
  enable_etags := true;
  compression_threshold := 1024;
  compression_types :=
    ["text/html"; "text/css"; "text/javascript";
     "application/javascript"; "application/json"; "text/xml"];
  allow_directory_traversal := false;
  forbidden_extensions := [".tmp"; ".bak"; ".log"];
  hidden_prefixes := ["."; "_"]
|}.

(** [StaticFileHandler::CacheEntry].  [mapped_data] is the content of the
    mapping, [None] for [nullptr]; times are clock readings. *)
Record CacheEntry : Type := {
  file_path : string;
  content_type : string;
  etag : string;
  last_modified : Z;
  file_size : Z;
  mapped_data : option string;
  mapped_size : Z;
  last_accessed : Z;
  access_count : Z;
  is_compressed : bool;
  compressed_data : string
}.

(** [StaticFileHandler::Stats]. *)
Record Stats : Type := {
  files_served : Z;
  bytes_served : Z;
  cache_hits : Z;
  cache_misses : Z;
  files_compressed : Z;
  range_requests : Z;
  not_modified_responses : Z;
  total_serve_time_us : Z
}.

(** The state of a [StaticFileHandler]; [mime_types_] is the constant
    table of [initialize_mime_types]. *)
Record Handler : Type := {
  config_ : Config;
  stats_ : Stats;
  routes_ : gmap string string;
  cache_ : gmap string CacheEntry;
  current_cache_size_ : Z
}.

(** [StaticFileHandler::Range]; the fields [start] and [end] carry a
    meaning only when [is_valid], which is [Some]. *)
Definition Range : Type := option (Z * Z).

(** [StaticFileHandler::parse_range_header]. *)
Definition parse_range_header (range_header : string) (file_size : Z) : Range :=
  if negb (starts_with range_header "bytes=") then None
  else
    match substr_from range_header 6 with
    | Throw _ => None
    | Return range_spec =>
        match find_char range_spec "-" with
        | None => None
        | Some dash_pos =>
            let start_str := substr_to range_spec dash_pos in
            match substr_from range_spec (S dash_pos) with
            | Throw _ => None
            | Return end_str =>
                if empty start_str && empty end_str then None
                else
                  let bounds : outcome (Z * Z) :=
                    if empty start_str then
                      bind (stoull end_str) (fun suffix_length =>
                      Return (if suffix_length <? file_size
                              then wrap (file_size - suffix_length) else 0,
                              wrap (file_size - 1)))
                    else if empty end_str then
                      bind (stoull start_str) (fun range_start =>
                      Return (range_start, wrap (file_size - 1)))
                    else
                      bind (stoull start_str) (fun range_start =>
                      bind (stoull end_str) (fun range_end =>
                      Return (range_start, range_end)))
                  in
                  match bounds with
                  | Throw _ => None
                  | Return (range_start, range_end) =>
                      if (range_start <? file_size) && (range_end <? file_size)
                         && (range_start <=? range_end)
                      then Some (range_start, range_end)
                      else None
                  end
            end
        end
    end.

(** [static_utils::is_safe_path]. *)
Definition is_safe_path (path : string) : bool :=
  negb (contains path "..") && negb (contains path "//").

(** [s.find_last_of(set)]: what follows the last character of the set,
    [None] when there is none. *)
Fixpoint after_last (set : ascii -> bool) (s : string) : option string :=
  match s with
  | EmptyString => None
  | String c s' =>
      match after_last set s' with
      | Some t => Some t
      | None => if set c then Some s' else None
      end
  end.

Definition is_separator (c : ascii) : bool := Ascii.eqb c "/" || Ascii.eqb c "\".

(** [pyspeed_compat::get_filename]. *)
Definition get_filename (path : string) : string :=
  match after_last is_separator path with
  | Some name => name
  | None => path
  end.

(** [pyspeed_compat::get_extension]: from the last dot of the file name. *)
Definition get_extension (path : string) : string :=
  match after_last (fun c => Ascii.eqb c ".") (get_filename path) with
  | Some ext => String "." ext
  | None => ""
  end.

(** [StaticFileHandler::is_file_forbidden]. *)
Definition is_file_forbidden (config : Config) (path : string) : bool :=
  existsb (fun ext => ends_with path ext) (forbidden_extensions config)
  || existsb (fun prefix => starts_with (get_filename path) prefix) (hidden_prefixes config).

(** [StaticFileHandler::should_compress]. *)
Definition should_compress (config : Config) (content_type : string) (size : Z) : bool :=
  if negb (enable_compression config) || (size <? compression_threshold config)
  then false
  else existsb (fun compressible_type => contains content_type compressible_type)
         (compression_types config).

(** [StaticFileHandler::accepts_gzip]. *)
Definition accepts_gzip (headers : gmap string string) : bool :=
  match headers !! "accept-encoding" with
  | Some value => contains value "gzip"
  | None => false
  end.

(** [initialize_mime_types]. *)
Definition mime_types_ : list (string * string) :=
  [(".html", "text/html"); (".htm", "text/html"); (".css", "text/css");
   (".js", "application/javascript"); (".json", "application/json");
   (".xml", "text/xml"); (".txt", "text/plain");
   (".png", "image/png"); (".jpg", "image/jpeg"); (".jpeg", "image/jpeg");
   (".gif", "image/gif"); (".svg", "image/svg+xml"); (".ico", "image/x-icon");
   (".webp", "image/webp");
   (".woff", "font/woff"); (".woff2", "font/woff2"); (".ttf", "font/ttf");
   (".eot", "application/vnd.ms-fontobject");
   (".mp4", "video/mp4"); (".webm", "video/webm"); (".ogg", "video/ogg");
   (".mp3", "audio/mpeg"); (".wav", "audio/wav"); (".flac", "audio/flac");
   (".zip", "application/zip"); (".gz", "application/gzip");
   (".tar", "application/x-tar");
   (".pdf", "application/pdf"); (".doc", "application/msword");
   (".docx", "application/vnd.openxmlformats-officedocument.wordprocessingml.document")].

Fixpoint table_find (table : list (string * string)) (key : string) : option string :=
  match table with
  | [] => None
  | (k, v) :: table' => if String.eqb k key then Some v else table_find table' key
  end.

(** [StaticFileHandler::get_mime_type]. *)
Definition get_mime_type (path : string) : string :=
  match table_find mime_types_ (transform_tolower (get_extension path)) with
  | Some mime => mime
  | None => "application/octet-stream"
  end.

(** *** The cache index *)

Definition max_cache_bytes (config : Config) : Z :=
  wrap (wrap (max_cache_size_mb config * 1024) * 1024).

Definition max_file_bytes (config : Config) : Z :=
  wrap (wrap (max_file_size_mb config * 1024) * 1024).

(** [std::pair] comparison of [(last_accessed, path)]. *)
Definition lru_le (a b : Z * string) : Prop :=
  a.1 < b.1 \/ (a.1 = b.1 /\ String.leb a.2 b.2 = true).

#[local] Instance lru_le_dec a b : Decision (lru_le a b).
Proof. unfold lru_le. apply _. Defined.

(** The first two statements of [evict_lru_entries]: the pairs
    [(last_accessed, path)] of the cached entries, sorted. *)
Definition lru_order (cache : gmap string CacheEntry) : list (Z * string) :=
  merge_sort lru_le
    ((fun item : string * CacheEntry => (last_accessed item.2, item.1))
       <$> map_to_list cache).

(** The eviction loop: [entries] still to visit, the bytes freed so far,
    the index and its recorded size.  [cache_[path]] always finds the
    entry, the paths being those read from the index; the branch for an
    absent key stands for the null dereference the source would make. *)
Fixpoint evict_loop (bytes_needed : Z) (entries : list (Z * string)) (freed_bytes : Z)
    (cache : gmap string CacheEntry) (current_cache_size : Z)
  : gmap string CacheEntry * Z :=
  match entries with
  | [] => (cache, current_cache_size)
  | (_, path) :: entries' =>
      match cache !! path with
      | None => (cache, current_cache_size)
      | Some entry =>
          let freed_bytes := wrap (freed_bytes + file_size entry) in
          let current_cache_size := wrap (current_cache_size - file_size entry) in
          let cache := delete path cache in
          if bytes_needed <=? freed_bytes then (cache, current_cache_size)
          else evict_loop bytes_needed entries' freed_bytes cache current_cache_size
      end
  end.

(** [StaticFileHandler::evict_lru_entries]. *)
Definition evict_lru_entries (bytes_needed : Z) (h : Handler) : Handler :=
  let '(cache, current) :=
    evict_loop bytes_needed (lru_order (cache_ h)) 0 (cache_ h) (current_cache_size_ h) in
  {| config_ := config_ h; stats_ := stats_ h; routes_ := routes_ h;
     cache_ := cache; current_cache_size_ := current |}.

(** [StaticFileHandler::cache_file]. *)
Definition cache_file (path : string) (entry : CacheEntry) (h : Handler) : Handler :=
  let h1 :=
    if max_cache_bytes (config_ h) <? wrap (current_cache_size_ h + file_size entry)
    then evict_lru_entries (file_size entry) h
    else h in
  {| config_ := config_ h1; stats_ := stats_ h1; routes_ := routes_ h1;
     cache_ := <[path := entry]> (cache_ h1);
     current_cache_size_ := wrap (current_cache_size_ h1 + file_size entry) |}.

(** [StaticFileHandler::clear_cache]. *)
Definition clear_cache (h : Handler) : Handler :=
  {| config_ := config_ h; stats_ := stats_ h; routes_ := routes_ h;
     cache_ := ∅; current_cache_size_ := 0 |}.

(** [StaticFileHandler::add_route] and [remove_route]. *)
Definition add_route (url_path local_path : string) (h : Handler) : Handler :=
  {| config_ := config_ h; stats_ := stats_ h;
     routes_ := <[url_path := local_path]> (routes_ h);
     cache_ := cache_ h; current_cache_size_ := current_cache_size_ h |}.

Definition remove_route (url_path : string) (h : Handler) : Handler :=
  {| config_ := config_ h; stats_ := stats_ h;
     routes_ := delete url_path (routes_ h);
     cache_ := cache_ h; current_cache_size_ := current_cache_size_ h |}.

(** The sum of [file_size] over the entries of the index. *)
Definition cached_bytes (cache : gmap string CacheEntry) : Z :=
  map_fold (fun _ entry total => file_size entry + total) 0 cache.


(** *** Properties of [parse_range_header] *)

Lemma wrap_range z : 0 <= wrap z < size_t_modulus.
Proof. unfold wrap. apply Z.mod_pos_bound. reflexivity. Qed.

Lemma wrap_small z : 0 <= z < size_t_modulus -> wrap z = z.
Proof. unfold wrap. apply Z.mod_small. Qed.

Lemma digit_value_range c : isdigit c = true -> 0 <= digit_value c <= 9.
Proof.
  unfold isdigit, digit_value. intros [H1 H2]%andb_prop.
  apply Z.leb_le in H1, H2. lia.
Qed.

Lemma digits_value_acc ds : forall acc,
  Forall (fun c => isdigit c = true) ds -> 0 <= acc ->
  0 <= fold_left (fun acc c => 10 * acc + digit_value c) ds acc.
Proof.
  induction ds as [|c ds IH]; intros acc Hds Hacc; [exact Hacc|].
  apply Forall_cons in Hds as [Hc Hds]. simpl. apply IH; [exact Hds|].
  pose proof (digit_value_range c Hc). lia.
Qed.

Lemma digits_prefix_digits s : Forall (fun c => isdigit c = true) (digits_prefix s).
Proof.
  induction s as [|c s IH]; simpl; [constructor|].
  destruct (isdigit c) eqn:Hc; constructor; assumption.
Qed.

Lemma stoull_unsigned_range s v :
  stoull_unsigned s = Return v -> 0 <= v < size_t_modulus.
Proof.
  unfold stoull_unsigned.
  pose proof (digits_value_acc (digits_prefix s) 0 (digits_prefix_digits s)
                ltac:(lia)) as Hpos.
  fold (digits_value (digits_prefix s)) in Hpos.
  destruct (digits_prefix s); [discriminate|].
  destruct (Z.ltb_spec (digits_value (a :: l)) size_t_modulus); [|discriminate].
  intros [= <-]. lia.
Qed.

Lemma stoull_range s v : stoull s = Return v -> 0 <= v < size_t_modulus.
Proof.
  unfold stoull. destruct (skip_spaces s) as [|c t].
  - apply stoull_unsigned_range.
  - destruct (Ascii.eqb c "-").
    + destruct (stoull_unsigned t); simpl; [|discriminate].
      intros [= <-]. apply wrap_range.
    + destruct (Ascii.eqb c "+"); apply stoull_unsigned_range.
Qed.

(** X17. Whatever the header, a range that [parse_range_header] declares
    valid lies inside the file: [0 <= start <= end < file_size], so the
    length [end - start + 1] served is between 1 and the file size and
    does not wrap.  For an empty file no header is ever valid. *)
Theorem valid_range_within_file (range_header : string) (file_size : Z) :
  0 <= file_size < size_t_modulus ->
  (forall range_start range_end,
     parse_range_header range_header file_size = Some (range_start, range_end) ->
     0 <= range_start <= range_end /\ range_end < file_size
     /\ wrap (range_end - range_start + 1) = range_end - range_start + 1
     /\ 1 <= range_end - range_start + 1 <= file_size)
  /\ (file_size = 0 -> parse_range_header range_header file_size = None).
Proof.
  intros Hsize.
  assert (Hvalid : forall a b,
            parse_range_header range_header file_size = Some (a, b) ->
            0 <= a <= b /\ b < file_size).
  { intros a b. unfold parse_range_header.
    destruct (negb _); [discriminate|].
    destruct (substr_from range_header 6) as [range_spec|]; [|discriminate].
    destruct (find_char range_spec "-") as [dash_pos|]; [|discriminate].
    destruct (substr_from range_spec (S dash_pos)) as [end_str|]; [|discriminate].
    destruct (_ && _); [discriminate|].
    match goal with |- match ?b with _ => _ end = _ -> _ => destruct b as [[x y]|] eqn:Hb end;
      [|discriminate].
    destruct ((x <? file_size) && (y <? file_size) && (x <=? y)) eqn:Hcheck;
      [|discriminate].
    intros [= <- <-].
    apply andb_prop in Hcheck as [[H1 H2]%andb_prop H3].
    apply Z.ltb_lt in H1, H2. apply Z.leb_le in H3.
    assert (0 <= x); [|lia].
    destruct (empty (substr_to range_spec dash_pos)).
    - destruct (stoull end_str) as [n|]; simpl in Hb; [|discriminate].
      injection Hb as <- _.
      destruct (n <? file_size); [apply wrap_range|lia].
    - destruct (empty end_str).
      + destruct (stoull (substr_to range_spec dash_pos)) as [n|] eqn:Hn;
          simpl in Hb; [|discriminate].
        injection Hb as <- _. apply (stoull_range _ _ Hn).
      + destruct (stoull (substr_to range_spec dash_pos)) as [n|] eqn:Hn;
          simpl in Hb; [|discriminate].
        destruct (stoull end_str); simpl in Hb; [|discriminate].
        injection Hb as <- _. apply (stoull_range _ _ Hn). }
  split.
  - intros a b Hab. destruct (Hvalid a b Hab) as [H1 H2].
    split; [exact H1|]. split; [exact H2|].
    split; [apply wrap_small|]; unfold size_t_modulus in *; lia.
  - intros ->. destruct (parse_range_header range_header 0) as [[a b]|];
      [|reflexivity].
    destruct (Hvalid a b eq_refl). lia.
Qed.

Lemma valid_range_within_file_witness :
  parse_range_header "bytes=10-19" 0 = None.
Proof.
  apply (proj2 (valid_range_within_file "bytes=10-19" 0 ltac:(vm_compute; split; congruence))).
  reflexivity.
Defined.


(** Decimal numerals and what may follow one. *)
Fixpoint all_digits (s : string) : bool :=
  match s with
  | EmptyString => true
  | String c s' => isdigit c && all_digits s'
  end.

Definition numeral (s : string) : bool := negb (empty s) && all_digits s.

Definition number (s : string) : Z := digits_value (list_ascii_of_string s).

Definition no_digit_next (junk : string) : bool :=
  match junk with
  | EmptyString => true
  | String c _ => negb (isdigit c)
  end.

Lemma isdigit_facts c :
  isdigit c = true ->
  isspace c = false /\ Ascii.eqb c "-" = false /\ Ascii.eqb c "+" = false.
Proof.
  destruct c as [[] [] [] [] [] [] [] []]; try discriminate;
    intros _; repeat split; reflexivity.
Qed.

Lemma digits_prefix_app s junk :
  all_digits s = true -> no_digit_next junk = true ->
  digits_prefix (s +:+ junk) = list_ascii_of_string s.
Proof.
  intros Hs Hjunk. induction s as [|c s IH].
  - change ("" +:+ junk) with junk. destruct junk as [|j junk]; [reflexivity|].
    simpl in *. now destruct (isdigit j).
  - change (String c s +:+ junk) with (String c (s +:+ junk)).
    simpl in *. apply andb_prop in Hs as [Hc Hs]. rewrite Hc. now rewrite IH.
Qed.

Lemma number_nonneg s : all_digits s = true -> 0 <= number s.
Proof.
  intros Hs. unfold number, digits_value. apply digits_value_acc; [|lia].
  induction s as [|c s IH]; simpl in *; [constructor|].
  apply andb_prop in Hs as [Hc Hs]. constructor; auto.
Qed.

Lemma stoull_numeral s junk :
  numeral s = true -> no_digit_next junk = true ->
  stoull (s +:+ junk)
  = if number s <? size_t_modulus then Return (number s) else Throw "stoull".
Proof.
  unfold numeral. intros [Hne Hs]%andb_prop Hjunk.
  destruct s as [|c s]; [discriminate|].
  pose proof Hs as Hds. simpl in Hs. apply andb_prop in Hs as [Hc Hs].
  destruct (isdigit_facts c Hc) as (Hsp & Hminus & Hplus).
  unfold stoull.
  change (String c s +:+ junk) with (String c (s +:+ junk)).
  cbn [skip_spaces]. rewrite Hsp, Hminus, Hplus.
  unfold stoull_unsigned.
  change (String c (s +:+ junk)) with (String c s +:+ junk).
  rewrite (digits_prefix_app _ _ Hds Hjunk).
  unfold number. simpl list_ascii_of_string. reflexivity.
Qed.

Lemma find_dash s rest :
  all_digits s = true ->
  find_char (s +:+ String "-" rest) "-" = Some (String.length s).
Proof.
  intros Hs. induction s as [|c s IH]; [reflexivity|].
  change (String c s +:+ String "-" rest) with (String c (s +:+ String "-" rest)).
  simpl in Hs. apply andb_prop in Hs as [Hc Hs].
  destruct (isdigit_facts c Hc) as (_ & Hminus & _).
  cbn [find_char]. rewrite Hminus, (IH Hs). reflexivity.
Qed.

Lemma substr_to_app s t : substr_to (s +:+ t) (String.length s) = s.
Proof.
  induction s as [|c s IH]; [destruct t; reflexivity|].
  change (String c s +:+ t) with (String c (s +:+ t)). simpl. now rewrite IH.
Qed.

Lemma substr_from_app s c t :
  substr_from (s +:+ String c t) (S (String.length s)) = Return t.
Proof.
  induction s as [|a s IH]; [destruct t; reflexivity|].
  change (String a s +:+ String c t) with (String a (s +:+ String c t)).
  simpl. exact IH.
Qed.

Lemma empty_app_false s t : empty s = false -> empty (s +:+ t) = false.
Proof. destruct s; [discriminate|reflexivity]. Qed.

Lemma bytes_prefix t :
  starts_with ("bytes=" +:+ t) "bytes=" = true
  /\ substr_from ("bytes=" +:+ t) 6 = Return t.
Proof. split; reflexivity. Qed.

(** X18. The three forms of a byte range.  With [first] and [last]
    decimal numerals and [junk] anything that does not begin with a digit
    (a second range after a comma, say), [bytes=first-last] followed by
    [junk] is valid exactly when [first <= last < file_size] and then
    denotes [first, last]; [bytes=first-] is valid exactly when
    [first < file_size] and runs to the last byte; [bytes=-last] followed by
    [junk] is valid exactly when the file is not empty and
    [0 < last < 2^64], and denotes the last [last] bytes, or the whole file
    if it is shorter.  Whatever follows the second number is ignored. *)
Theorem range_forms (first last junk : string) (file_size : Z) :
  0 <= file_size < size_t_modulus ->
  numeral first = true -> numeral last = true -> no_digit_next junk = true ->
  parse_range_header ("bytes=" +:+ first +:+ "-" +:+ last +:+ junk) file_size
  = (if (number first <=? number last) && (number last <? file_size)
     then Some (number first, number last) else None)
  /\ parse_range_header ("bytes=" +:+ first +:+ "-") file_size
     = (if number first <? file_size
        then Some (number first, file_size - 1) else None)
  /\ parse_range_header ("bytes=-" +:+ last +:+ junk) file_size
     = (if (0 <? number last) && (number last <? size_t_modulus) && (0 <? file_size)
        then Some (Z.max 0 (file_size - number last), file_size - 1) else None).
Proof.
  intros Hsize Hfirst Hlast Hjunk.
  pose proof Hfirst as Hf. pose proof Hlast as Hl.
  unfold numeral in Hf, Hl.
  apply andb_prop in Hf as [Hfne Hfd]. apply andb_prop in Hl as [Hlne Hld].
  apply negb_true_iff in Hfne, Hlne.
  pose proof (number_nonneg _ Hfd) as Hfpos.
  pose proof (number_nonneg _ Hld) as Hlpos.
  pose proof (stoull_numeral first "" Hfirst eq_refl) as Hsf.
  rewrite Json.string_app_nil_r in Hsf.
  pose proof (stoull_numeral last junk Hlast Hjunk) as Hsl.
  assert (Hw : wrap (file_size - 1) = if 0 <? file_size then file_size - 1
                                     else size_t_modulus - 1).
  { destruct (Z.ltb_spec 0 file_size).
    - apply wrap_small. lia.
    - assert (file_size = 0) as -> by lia. reflexivity. }
  unfold size_t_modulus in *.
  split; [|split].
  - unfold parse_range_header.
    rewrite (proj1 (bytes_prefix _)), (proj2 (bytes_prefix _)). cbn [negb].
    change ("-" +:+ last +:+ junk) with (String "-" (last +:+ junk)).
    rewrite (find_dash _ _ Hfd), substr_to_app, substr_from_app.
    rewrite Hfne. cbn [andb]. rewrite (empty_app_false _ _ Hlne).
    rewrite Hsf, Hsl.
    destruct (Z.ltb_spec (number first) (2 ^ 64));
      destruct (Z.ltb_spec (number last) (2 ^ 64)); cbn [bind];
      destruct (Z.leb_spec (number first) (number last));
      destruct (Z.ltb_spec (number last) file_size);
      destruct (Z.ltb_spec (number first) file_size);
      cbn [andb]; try reflexivity; lia.
  - unfold parse_range_header.
    rewrite (proj1 (bytes_prefix _)), (proj2 (bytes_prefix _)). cbn [negb].
    rewrite (find_dash _ _ Hfd), substr_to_app, substr_from_app.
    rewrite Hfne. cbn [andb empty]. rewrite Hsf, Hw.
    destruct (Z.ltb_spec (number first) (2 ^ 64)); cbn [bind];
      destruct (Z.ltb_spec 0 file_size);
      destruct (Z.ltb_spec (number first) file_size);
      destruct (Z.ltb_spec (file_size - 1) file_size);
      destruct (Z.ltb_spec (2 ^ 64 - 1) file_size);
      destruct (Z.leb_spec (number first) (file_size - 1));
      destruct (Z.leb_spec (number first) (2 ^ 64 - 1));
      cbn [andb]; try reflexivity; lia.
  - unfold parse_range_header.
    change ("bytes=-" +:+ last +:+ junk) with ("bytes=" +:+ String "-" (last +:+ junk)).
    rewrite (proj1 (bytes_prefix _)), (proj2 (bytes_prefix _)). cbn [negb].
    change (find_char (String "-" (last +:+ junk)) "-") with (Some 0%nat).
    cbv beta iota.
    change (substr_to (String "-" (last +:+ junk)) 0) with "".
    change (substr_from (String "-" (last +:+ junk)) 1) with (Return (last +:+ junk)).
    cbv beta iota.
    rewrite (empty_app_false _ _ Hlne).
    change (empty "") with true. cbn [andb].
    rewrite Hsl, Hw.
    destruct (Z.ltb_spec (number last) (2 ^ 64)); cbn [bind andb];
      [|destruct (0 <? number last); reflexivity].
    destruct (Z.ltb_spec (number last) file_size).
    + rewrite (wrap_small (file_size - number last)) by (unfold size_t_modulus; lia).
      rewrite Z.max_r by lia.
      destruct (Z.ltb_spec 0 (number last));
        destruct (Z.ltb_spec 0 file_size);
        destruct (Z.ltb_spec (file_size - number last) file_size);
        destruct (Z.ltb_spec (file_size - 1) file_size);
        destruct (Z.leb_spec (file_size - number last) (file_size - 1));
        cbn [andb]; try reflexivity; lia.
    + rewrite Z.max_l by lia.
      destruct (Z.ltb_spec 0 (number last));
        destruct (Z.ltb_spec 0 file_size);
        destruct (Z.ltb_spec (file_size - 1) file_size);
        destruct (Z.ltb_spec (2 ^ 64 - 1) file_size);
        destruct (Z.leb_spec 0 (file_size - 1));
        destruct (Z.leb_spec 0 (2 ^ 64 - 1));
        cbn [andb]; try reflexivity; lia.
Qed.

Lemma range_forms_witness :
  parse_range_header ("bytes=" +:+ "0" +:+ "-" +:+ "5" +:+ ",10-15") 1000
  = Some (0, 5)
  /\ parse_range_header ("bytes=-" +:+ "500" +:+ "") 1000 = Some (500, 999).
Proof.
  pose proof (range_forms "0" "5" ",10-15" 1000
                ltac:(vm_compute; split; congruence) eq_refl eq_refl eq_refl) as H1.
  pose proof (range_forms "0" "500" "" 1000
                ltac:(vm_compute; split; congruence) eq_refl eq_refl eq_refl) as H2.
  split.
  - exact (proj1 H1).
  - exact (proj2 (proj2 H2)).
Defined.


(** *** The cache index and its recorded size *)

(** Every cached entry has a size that is a [size_t]. *)
Definition sizes_ok (cache : gmap string CacheEntry) : Prop :=
  map_Forall (fun _ entry => 0 <= file_size entry) cache.

(** The recorded size is the sum of the sizes of the cached entries. *)
Definition index_consistent (h : Handler) : Prop :=
  sizes_ok (cache_ h)
  /\ cached_bytes (cache_ h) = current_cache_size_ h
  /\ current_cache_size_ h < size_t_modulus.

Lemma cached_bytes_insert (cache : gmap string CacheEntry) path entry :
  cache !! path = None ->
  cached_bytes (<[path := entry]> cache) = file_size entry + cached_bytes cache.
Proof.
  intros Hnone. unfold cached_bytes.
  rewrite map_fold_insert_L; [reflexivity| |exact Hnone].
  intros. lia.
Qed.

Lemma cached_bytes_delete (cache : gmap string CacheEntry) path entry :
  cache !! path = Some entry ->
  cached_bytes cache = file_size entry + cached_bytes (delete path cache).
Proof.
  intros Hsome. unfold cached_bytes.
  rewrite (map_fold_delete_L _ _ path entry cache); [reflexivity| |exact Hsome].
  intros. lia.
Qed.

Lemma cached_bytes_empty : cached_bytes ∅ = 0.
Proof. unfold cached_bytes. apply map_fold_empty. Qed.

Lemma cached_bytes_nonneg (cache : gmap string CacheEntry) :
  sizes_ok cache -> 0 <= cached_bytes cache.
Proof.
  induction cache as [|path entry cache Hnone IH] using map_ind; intros Hok.
  - rewrite cached_bytes_empty. lia.
  - rewrite cached_bytes_insert by exact Hnone.
    apply map_Forall_insert in Hok as [He Hok]; [|exact Hnone].
    specialize (IH Hok). simpl in He. lia.
Qed.

Lemma sizes_ok_delete (cache : gmap string CacheEntry) path :
  sizes_ok cache -> sizes_ok (delete path cache).
Proof. apply map_Forall_delete. Qed.

Lemma cached_bytes_member (cache : gmap string CacheEntry) path entry :
  sizes_ok cache -> cache !! path = Some entry ->
  0 <= file_size entry <= cached_bytes cache.
Proof.
  intros Hok Hsome.
  pose proof (Hok path entry Hsome) as He. simpl in He.
  rewrite (cached_bytes_delete _ _ _ Hsome).
  pose proof (cached_bytes_nonneg _ (sizes_ok_delete _ path Hok)). lia.
Qed.

(** What the eviction loop achieves, for a list of entries that names
    each cached path once. *)
Lemma evict_loop_spec bytes_needed entries :
  forall freed (cache : gmap string CacheEntry) current,
  sizes_ok cache -> cached_bytes cache = current ->
  0 <= freed -> freed + current < size_t_modulus ->
  NoDup entries.*2 ->
  (forall path, path ∈ entries.*2 <-> is_Some (cache !! path)) ->
  exists cache' current' evicted kept,
    evict_loop bytes_needed entries freed cache current = (cache', current')
    /\ sizes_ok cache' /\ cached_bytes cache' = current'
    /\ cache' ⊆ cache /\ 0 <= current' <= current
    /\ (bytes_needed <= freed + (current - current') \/ cache' = ∅)
    /\ entries = (evicted ++ kept)%list
    /\ (forall path, is_Some (cache' !! path) <-> path ∈ kept.*2).
Proof.
  induction entries as [|[t p] entries IH];
    intros freed cache current Hok Hsum Hfreed Hbound Hnd Hkeys.
  - assert (cache = ∅) as ->.
    { apply map_empty. intros path.
      destruct (cache !! path) eqn:Hp; [|reflexivity].
      exfalso. assert (path ∈ ([] : list (Z * string)).*2) as Hin
        by (apply Hkeys; eauto).
      inversion Hin. }
    exists ∅, current, [], []. simpl.
    pose proof (cached_bytes_nonneg _ Hok).
    repeat split; auto; try lia.
    + intros [x Hx]. rewrite lookup_empty in Hx. discriminate.
    + intros Hin. inversion Hin.
  - cbn [fmap list_fmap snd] in Hnd, Hkeys.
    apply NoDup_cons in Hnd as [Hp Hnd].
    assert (is_Some (cache !! p)) as [entry Hentry]
      by (apply Hkeys; left).
    pose proof (cached_bytes_member _ _ _ Hok Hentry) as Hsize.
    pose proof (cached_bytes_delete _ _ _ Hentry) as Hdel.
    assert (Hkeys' : forall path,
              path ∈ entries.*2 <-> is_Some (delete p cache !! path)).
    { intros path. destruct (decide (path = p)) as [->|Hne].
      - rewrite lookup_delete_eq. split; [contradiction|intros [x Hx]; discriminate].
      - rewrite lookup_delete_ne by congruence. rewrite <- Hkeys.
        rewrite elem_of_cons. split; [now right|intros [?|?]; [contradiction|assumption]]. }
    cbn [evict_loop]. rewrite Hentry.
    rewrite (wrap_small (freed + file_size entry)) by lia.
    rewrite (wrap_small (current - file_size entry)) by lia.
    destruct (Z.leb_spec bytes_needed (freed + file_size entry)) as [Henough|Hmore].
    + exists (delete p cache), (current - file_size entry), [(t, p)], entries.
      repeat split; auto; try lia.
      * now apply sizes_ok_delete.
      * apply delete_subseteq.
      * apply Hkeys'.
      * apply Hkeys'.
    + destruct (IH (freed + file_size entry) (delete p cache)
                  (current - file_size entry))
        as (cache' & current' & evicted & kept & Hrun & Hok' & Hsum' & Hsub
            & Hcur & Hgoal & Hsplit & Hkept);
        auto; try lia.
      * now apply sizes_ok_delete.
      * exists cache', current', ((t, p) :: evicted), kept.
        repeat split; auto; try lia.
        -- etransitivity; [exact Hsub|apply delete_subseteq].
        -- destruct Hgoal as [Hgoal|Hgoal]; [left; lia|now right].
        -- simpl. now rewrite Hsplit.
        -- apply Hkept.
        -- apply Hkept.
Qed.


#[local] Instance lru_le_total : Total lru_le.
Proof.
  intros [t1 p1] [t2 p2]. unfold lru_le. simpl.
  destruct (Z.lt_trichotomy t1 t2) as [H|[H|H]]; [left; now left| |right; now left].
  destruct (String.leb_total p1 p2) as [Hp|Hp];
    [left|right]; right; split; congruence.
Qed.

Definition older_or_same (a b : Z * string) : Prop := a.1 <= b.1.

Lemma lru_order_perm (cache : gmap string CacheEntry) :
  lru_order cache
  ≡ₚ (fun item : string * CacheEntry => (last_accessed item.2, item.1))
       <$> map_to_list cache.
Proof. unfold lru_order. apply merge_sort_Permutation. Qed.

Lemma lru_order_paths (cache : gmap string CacheEntry) :
  (lru_order cache).*2 ≡ₚ (map_to_list cache).*1.
Proof.
  rewrite lru_order_perm, <- list_fmap_compose.
  replace (snd ∘ (fun item : string * CacheEntry => (last_accessed item.2, item.1)))
    with (@fst string CacheEntry); reflexivity.
Qed.

Lemma lru_order_NoDup (cache : gmap string CacheEntry) : NoDup (lru_order cache).*2.
Proof. rewrite lru_order_paths. apply NoDup_fst_map_to_list. Qed.

Lemma lru_order_member (cache : gmap string CacheEntry) t path :
  (t, path) ∈ lru_order cache
  <-> exists entry, cache !! path = Some entry /\ t = last_accessed entry.
Proof.
  rewrite lru_order_perm, list_elem_of_fmap. split.
  - intros [[p e] [[= -> ->] Hin]]. exists e. split; [|reflexivity].
    now apply elem_of_map_to_list in Hin.
  - intros [e [He ->]]. exists (path, e). split; [reflexivity|].
    now apply elem_of_map_to_list.
Qed.

Lemma lru_order_keys (cache : gmap string CacheEntry) path :
  path ∈ (lru_order cache).*2 <-> is_Some (cache !! path).
Proof.
  rewrite list_elem_of_fmap. split.
  - intros [[t p] [-> Hin]]. apply lru_order_member in Hin as [e [He _]]. eauto.
  - intros [e He]. exists (last_accessed e, path). split; [reflexivity|].
    apply lru_order_member. eauto.
Qed.

Lemma Sorted_weaken {A} (R R' : relation A) l :
  (forall x y, R x y -> R' x y) -> Sorted R l -> Sorted R' l.
Proof.
  intros Himpl Hs. induction Hs as [|x l Hs IH Hhd]; constructor; [exact IH|].
  destruct Hhd; constructor; auto.
Qed.

Lemma lru_order_sorted (cache : gmap string CacheEntry) :
  StronglySorted older_or_same (lru_order cache).
Proof.
  apply Sorted_StronglySorted.
  - intros a b c. unfold older_or_same. lia.
  - apply (Sorted_weaken lru_le).
    + intros a b [H|[H _]]; unfold older_or_same; lia.
    + unfold lru_order. apply Sorted_merge_sort, lru_le_total.
Qed.

Lemma StronglySorted_app_le {A} (R : relation A) l1 l2 x y :
  StronglySorted R (l1 ++ l2) -> x ∈ l1 -> y ∈ l2 -> R x y.
Proof.
  induction l1 as [|a l1 IH]; intros Hs Hx Hy; [inversion Hx|].
  simpl in Hs. apply StronglySorted_inv in Hs as [Hs Hall].
  apply elem_of_cons in Hx as [->|Hx]; [|now apply IH].
  rewrite Forall_forall in Hall. apply Hall. apply elem_of_app. now right.
Qed.

(** What [evict_lru_entries] does to a consistent index. *)
Lemma evict_lru_entries_spec (bytes_needed : Z) (h : Handler) :
  index_consistent h ->
  let h' := evict_lru_entries bytes_needed h in
  index_consistent h'
  /\ cache_ h' ⊆ cache_ h
  /\ (bytes_needed <= current_cache_size_ h - current_cache_size_ h'
      \/ cache_ h' = ∅)
  /\ (forall path entry path' entry',
        cache_ h !! path = Some entry -> cache_ h' !! path = None ->
        cache_ h' !! path' = Some entry' ->
        last_accessed entry <= last_accessed entry')
  /\ config_ h' = config_ h /\ stats_ h' = stats_ h /\ routes_ h' = routes_ h.
Proof.
  intros (Hok & Hsum & Hlt). cbv zeta. unfold evict_lru_entries.
  pose proof (cached_bytes_nonneg _ Hok) as Hpos.
  assert (H0 : 0 <= 0) by lia.
  assert (Hb : 0 + current_cache_size_ h < size_t_modulus) by lia.
  destruct (evict_loop_spec bytes_needed (lru_order (cache_ h)) 0 (cache_ h)
              (current_cache_size_ h) Hok Hsum H0 Hb
              (lru_order_NoDup _) (lru_order_keys _))
    as (cache' & current' & evicted & kept & Hrun & Hok' & Hsum' & Hsub
        & Hcur & Hgoal & Hsplit & Hkept).
  rewrite Hrun. unfold index_consistent.
  cbn [cache_ current_cache_size_ config_ stats_ routes_].
  split; [split; [exact Hok'|split; [exact Hsum'|lia]]|].
  split; [exact Hsub|].
  split; [destruct Hgoal; [left; lia|now right]|].
  split; [|auto].
  intros path entry path' entry' Hpath Hgone Hkeep.
  assert (Hin : (last_accessed entry, path) ∈ lru_order (cache_ h))
    by (apply lru_order_member; eauto).
  assert (Hin' : (last_accessed entry', path') ∈ lru_order (cache_ h)).
  { apply lru_order_member. exists entry'. split; [|reflexivity].
    eapply lookup_weaken; eassumption. }
  rewrite Hsplit in Hin, Hin'.
  pose proof (lru_order_sorted (cache_ h)) as Hsorted. rewrite Hsplit in Hsorted.
  pose proof (lru_order_NoDup (cache_ h)) as Hnd. rewrite Hsplit, fmap_app in Hnd.
  apply NoDup_app in Hnd as (_ & Hdisj & _).
  apply elem_of_app in Hin as [Hin|Hin].
  - apply elem_of_app in Hin' as [Hin'|Hin'].
    + exfalso. apply (Hdisj path').
      * apply list_elem_of_fmap. now exists (last_accessed entry', path').
      * apply Hkept. eauto.
    + exact (StronglySorted_app_le _ _ _ _ _ Hsorted Hin Hin').
  - exfalso.
    assert (is_Some (cache' !! path)) as [x Hx].
    { apply Hkept. apply list_elem_of_fmap. now exists (last_accessed entry, path). }
    congruence.
Qed.



(** What [cache_file] does to a consistent index. *)
Lemma cache_file_spec (path : string) (entry : CacheEntry) (h : Handler) :
  index_consistent h ->
  current_cache_size_ h <= max_cache_bytes (config_ h) ->
  cache_ h !! path = None ->
  0 <= file_size entry ->
  file_size entry + max_cache_bytes (config_ h) < size_t_modulus ->
  let h' := cache_file path entry h in
  index_consistent h'
  /\ cache_ h' !! path = Some entry
  /\ (forall other e, other <> path ->
        cache_ h' !! other = Some e -> cache_ h !! other = Some e)
  /\ (file_size entry <= max_cache_bytes (config_ h) ->
      current_cache_size_ h' <= max_cache_bytes (config_ h'))
  /\ (max_cache_bytes (config_ h) < file_size entry ->
      cache_ h' = {[path := entry]} /\ current_cache_size_ h' = file_size entry)
  /\ config_ h' = config_ h /\ stats_ h' = stats_ h /\ routes_ h' = routes_ h.
Proof.
  intros Hcons Hmax Hnone Hsize Hnowrap. cbv zeta.
  pose proof Hcons as (Hok & Hsum & Hlt).
  pose proof (cached_bytes_nonneg _ Hok) as Hpos.
  destruct (evict_lru_entries_spec (file_size entry) h Hcons)
    as (Hcons' & Hsub & Hgoal & _ & Hcfg & Hst & Hrt).
  destruct Hcons' as (Hok' & Hsum' & Hlt').
  pose proof (cached_bytes_nonneg _ Hok') as Hpos'.
  assert (Hle : current_cache_size_ (evict_lru_entries (file_size entry) h)
                <= current_cache_size_ h).
  { destruct Hgoal as [Hg|Hg]; [lia|].
    rewrite <- Hsum', Hg, cached_bytes_empty. lia. }
  unfold cache_file, index_consistent.
  rewrite (wrap_small (current_cache_size_ h + file_size entry)) by lia.
  destruct (Z.ltb_spec (max_cache_bytes (config_ h))
              (current_cache_size_ h + file_size entry)) as [Hevict|Hroom];
    cbn [cache_ current_cache_size_ config_ stats_ routes_].
  - assert (Hnone' : cache_ (evict_lru_entries (file_size entry) h) !! path = None)
      by (eapply lookup_weaken_None; eassumption).
    rewrite wrap_small by lia.
    split; [split; [|split]|].
    + apply map_Forall_insert; [exact Hnone'|]. split; [exact Hsize|exact Hok'].
    + rewrite cached_bytes_insert by exact Hnone'. lia.
    + lia.
    + split; [apply lookup_insert_eq|].
      split.
      { intros other e Hne. rewrite lookup_insert_ne by congruence.
        intros He. eapply lookup_weaken; eassumption. }
      split.
      { intros Hfits. rewrite Hcfg.
        destruct Hgoal as [Hg|Hg]; [lia|].
        rewrite <- Hsum', Hg, cached_bytes_empty. lia. }
      split; [|auto].
      intros Hbig. destruct Hgoal as [Hg|Hg]; [lia|].
      rewrite Hg. split; [reflexivity|].
      rewrite <- Hsum', Hg, cached_bytes_empty. lia.
  - rewrite wrap_small by lia.
    split; [split; [|split]|].
    + apply map_Forall_insert; [exact Hnone|]. split; [exact Hsize|exact Hok].
    + rewrite cached_bytes_insert by exact Hnone. lia.
    + lia.
    + split; [apply lookup_insert_eq|].
      split; [intros other e Hne; now rewrite lookup_insert_ne by congruence|].
      split; [lia|]. split; [lia|auto].
Qed.

(** X20. Insertion.  [cache_file] on a consistent index whose recorded
    size is within [max_cache_bytes], for a path not yet cached: the
    entry is inserted, other entries are only removed, and the recorded
    size stays the sum of the sizes.  When the entry fits
    ([file_size <= max_cache_bytes]) the size stays within the limit.
    When it does not, nothing refuses it: everything else is evicted, the
    entry is cached alone and the recorded size exceeds the limit. *)
Theorem cache_file_keeps_index (path : string) (entry : CacheEntry) (h : Handler) :
  index_consistent h ->
  current_cache_size_ h <= max_cache_bytes (config_ h) ->
  cache_ h !! path = None ->
  0 <= file_size entry ->
  file_size entry + max_cache_bytes (config_ h) < size_t_modulus ->
  let h' := cache_file path entry h in
  index_consistent h'
  /\ cache_ h' !! path = Some entry
  /\ (forall other e, other <> path ->
        cache_ h' !! other = Some e -> cache_ h !! other = Some e)
  /\ (file_size entry <= max_cache_bytes (config_ h) ->
      current_cache_size_ h' <= max_cache_bytes (config_ h'))
  /\ (max_cache_bytes (config_ h) < file_size entry ->
      cache_ h' = {[path := entry]} /\ current_cache_size_ h' = file_size entry)
  /\ config_ h' = config_ h /\ stats_ h' = stats_ h /\ routes_ h' = routes_ h.
Proof. exact (cache_file_spec path entry h). Qed.

(** An index of two files, the first one accessed before the second. *)
Definition example_entry (path : string) (size accessed : Z) : CacheEntry :=
  {| file_path := path; content_type := "text/plain"; etag := "";
     last_modified := 0; file_size := size;
     mapped_data := Some ""; mapped_size := size;
     last_accessed := accessed; access_count := 1;
     is_compressed := false; compressed_data := "" |}.

Definition example_index : Handler :=
  {| config_ := default_config;
     stats_ := {| files_served := 2; bytes_served := 12; cache_hits := 0;
                  cache_misses := 2; files_compressed := 0; range_requests := 0;
                  not_modified_responses := 0; total_serve_time_us := 0 |};
     routes_ := ∅;
     cache_ := <["a" := example_entry "a" 5 1]> (<["b" := example_entry "b" 7 2]> ∅);
     current_cache_size_ := 12 |}.

Lemma example_index_consistent : index_consistent example_index.
Proof.
  split; [|split; reflexivity].
  apply map_Forall_insert_2; [simpl; lia|].
  apply map_Forall_insert_2; [simpl; lia|].
  apply map_Forall_empty.
Defined.


Lemma cache_file_keeps_index_witness :
  index_consistent (cache_file "c" (example_entry "c" 4 3) example_index).
Proof.
  refine (proj1 (cache_file_keeps_index "c" (example_entry "c" 4 3) example_index
                   example_index_consistent _ _ _ _)).
  - vm_compute. congruence.
  - reflexivity.
  - simpl. lia.
  - vm_compute. reflexivity.
Defined.



(** *** Serving a file *)

(** A regular file: modification time in seconds, content, and whether
    [open], [fstat] and [mmap] succeed on it. *)
Record File : Type := {
  mtime : Z;
  bytes : string;
  mappable : bool
}.

(** What a call reads from outside the handler: the regular files by
    path, the two clocks and the duration measured for the call. *)
Record Env : Type := {
  fs : gmap string File;
  steady_now : Z;
  system_now : Z;
  elapsed_us : Z
}.

(** [pyspeed_compat::file_exists], [get_file_size], [get_last_write_time]. *)
Definition file_exists (env : Env) (path : string) : bool :=
  match fs env !! path with Some _ => true | None => false end.

Definition get_file_size (env : Env) (path : string) : Z :=
  match fs env !! path with
  | Some file => wrap (size (bytes file))
  | None => 0
  end.

Definition get_last_write_time (env : Env) (path : string) : Z :=
  match fs env !! path with
  | Some file => mtime file
  | None => system_now env
  end.

(** [CacheEntry::is_valid]. *)
Definition is_valid (env : Env) (entry : CacheEntry) : bool :=
  match mapped_data entry with
  | Some _ => file_exists env (file_path entry)
  | None => false
  end.

Definition with_mapping (entry : CacheEntry) (region : string) : CacheEntry :=
  {| file_path := file_path entry; content_type := content_type entry;
     etag := etag entry; last_modified := last_modified entry;
     file_size := file_size entry;
     mapped_data := Some region; mapped_size := wrap (size region);
     last_accessed := last_accessed entry; access_count := access_count entry;
     is_compressed := is_compressed entry;
     compressed_data := compressed_data entry |}.

(** [CacheEntry::map_file]: the entry once mapped, [None] for [false]. *)
Definition map_file (env : Env) (entry : CacheEntry) : option CacheEntry :=
  match mapped_data entry with
  | Some _ => Some entry
  | None =>
      match fs env !! file_path entry with
      | Some file => if mappable file then Some (with_mapping entry (bytes file)) else None
      | None => None
      end
  end.

(** [ServeResult::Status]. *)
Inductive Status : Type :=
| SUCCESS | NOT_FOUND | FORBIDDEN | NOT_MODIFIED | RANGE_NOT_SATISFIABLE | INTERNAL_ERROR.

(** The pointer [ServeResult::data]: null, into a mapping, or to the
    characters of [string_data]; with the offset added to it. *)
Inductive Pointer : Type :=
| Null (offset : Z)
| Mapping (region : string) (offset : Z)
| StringData.

Definition mapped_pointer (entry : CacheEntry) : Pointer :=
  match mapped_data entry with
  | Some region => Mapping region 0
  | None => Null 0
  end.

Definition pointer_add (p : Pointer) (n : Z) : Pointer :=
  match p with
  | Null offset => Null (offset + n)
  | Mapping region offset => Mapping region (offset + n)
  | StringData => StringData
  end.

(** The bytes readable at a pointer, [None] at a null pointer. *)
Definition readable (p : Pointer) (n : Z) : option string :=
  match p with
  | Null _ => None
  | Mapping region offset =>
      Some (substr_to (Http.drop_chars (Z.to_nat offset) region) (Z.to_nat n))
  | StringData => None
  end.

(** [StaticFileHandler::ServeResult]. *)
Record ServeResult : Type := {
  status : Status;
  result_content_type : string;
  result_etag : string;
  result_last_modified : Z;
  content_length : Z;
  data : Pointer;
  string_data : string;
  is_partial_content : bool;
  range_start : Z;
  range_end : Z;
  total_size : Z
}.

Definition initial_result : ServeResult := {|
  status := SUCCESS; result_content_type := ""; result_etag := "";
  result_last_modified := 0; content_length := 0; data := Null 0;
  string_data := ""; is_partial_content := false;
  range_start := 0; range_end := 0; total_size := 0
|}.

Definition with_status (result : ServeResult) (st : Status) : ServeResult :=
  {| status := st; result_content_type := result_content_type result;
     result_etag := result_etag result;
     result_last_modified := result_last_modified result;
     content_length := content_length result; data := data result;
     string_data := string_data result;
     is_partial_content := is_partial_content result;
     range_start := range_start result; range_end := range_end result;
     total_size := total_size result |}.

Definition with_stats (h : Handler) (st : Stats) : Handler :=
  {| config_ := config_ h; stats_ := st; routes_ := routes_ h;
     cache_ := cache_ h; current_cache_size_ := current_cache_size_ h |}.

Definition with_cache (h : Handler) (cache : gmap string CacheEntry) (current : Z)
  : Handler :=
  {| config_ := config_ h; stats_ := stats_ h; routes_ := routes_ h;
     cache_ := cache; current_cache_size_ := current |}.

(** The counters, each incremented by [fetch_add]. *)
Definition count_not_modified (st : Stats) : Stats :=
  {| files_served := files_served st; bytes_served := bytes_served st;
     cache_hits := cache_hits st; cache_misses := cache_misses st;
     files_compressed := files_compressed st; range_requests := range_requests st;
     not_modified_responses := wrap (not_modified_responses st + 1);
     total_serve_time_us := total_serve_time_us st |}.

Definition count_hit (st : Stats) : Stats :=
  {| files_served := files_served st; bytes_served := bytes_served st;
     cache_hits := wrap (cache_hits st + 1); cache_misses := cache_misses st;
     files_compressed := files_compressed st; range_requests := range_requests st;
     not_modified_responses := not_modified_responses st;
     total_serve_time_us := total_serve_time_us st |}.

Definition count_miss (st : Stats) : Stats :=
  {| files_served := files_served st; bytes_served := bytes_served st;
     cache_hits := cache_hits st; cache_misses := wrap (cache_misses st + 1);
     files_compressed := files_compressed st; range_requests := range_requests st;
     not_modified_responses := not_modified_responses st;
     total_serve_time_us := total_serve_time_us st |}.

Definition count_range (st : Stats) : Stats :=
  {| files_served := files_served st; bytes_served := bytes_served st;
     cache_hits := cache_hits st; cache_misses := cache_misses st;
     files_compressed := files_compressed st;
     range_requests := wrap (range_requests st + 1);
     not_modified_responses := not_modified_responses st;
     total_serve_time_us := total_serve_time_us st |}.

Definition count_compressed (st : Stats) : Stats :=
  {| files_served := files_served st; bytes_served := bytes_served st;
     cache_hits := cache_hits st; cache_misses := cache_misses st;
     files_compressed := wrap (files_compressed st + 1);
     range_requests := range_requests st;
     not_modified_responses := not_modified_responses st;
     total_serve_time_us := total_serve_time_us st |}.

(** The statistics updated at the end of [serve_file]. *)
Definition count_served (env : Env) (result : ServeResult) (st : Stats) : Stats :=
  {| files_served := wrap (files_served st + 1);
     bytes_served := wrap (bytes_served st + content_length result);
     cache_hits := cache_hits st; cache_misses := cache_misses st;
     files_compressed := files_compressed st; range_requests := range_requests st;
     not_modified_responses := not_modified_responses st;
     total_serve_time_us := wrap (total_serve_time_us st + elapsed_us env) |}.

(** [StaticFileHandler::get_cached_file]: the entry found, if it is still
    valid; a stale entry is erased. *)
Definition get_cached_file (env : Env) (path : string) (h : Handler)
  : option CacheEntry * Handler :=
  match cache_ h !! path with
  | Some entry =>
      if is_valid env entry then (Some entry, h)
      else (None,
            with_cache h (delete path (cache_ h))
              (wrap (current_cache_size_ h - file_size entry)))
  | None => (None, h)
  end.

(** The loop of [resolve_file_path] over [routes_]: the longest route
    that is a prefix of the request path, with its local root. *)
Definition longest_route (routes : gmap string string) (request_path : string)
  : string * string :=
  map_fold
    (fun route_path route_root best =>
       if String.eqb (substr_to request_path (String.length route_path)) route_path
          && Nat.ltb (String.length best.1) (String.length route_path)
       then (route_path, route_root) else best)
    ("", "") routes.

(** Unsigned hexadecimal without leading zeros, as [std::hex] prints. *)
Fixpoint strip_zeros (s : string) : string :=
  match s with
  | String c s' => if Ascii.eqb c "0" && negb (empty s') then strip_zeros s' else s
  | EmptyString => EmptyString
  end.

Definition hex (z : Z) : string := strip_zeros (Json.hex_digits 16 z).

(** *** Forbidden files *)

(** No character of the string is a path separator. *)
Fixpoint no_separator (s : string) : bool :=
  match s with
  | EmptyString => true
  | String c s' => negb (is_separator c) && no_separator s'
  end.

Lemma after_last_no_separator name :
  no_separator name = true -> after_last is_separator name = None.
Proof.
  induction name as [|c name IH]; [reflexivity|].
  cbn [no_separator after_last]. intros H. apply andb_prop in H as [Hc Hname].
  rewrite (IH Hname). apply negb_true_iff in Hc. now rewrite Hc.
Qed.

Lemma get_filename_app dir c name :
  is_separator c = true -> no_separator name = true ->
  get_filename (dir +:+ String c name) = name.
Proof.
  intros Hc Hname. unfold get_filename.
  assert (H : after_last is_separator (dir +:+ String c name) = Some name).
  { induction dir as [|a dir IH].
    - change ("" +:+ String c name) with (String c name). cbn [after_last].
      now rewrite (after_last_no_separator name Hname), Hc.
    - change (String a dir +:+ String c name) with (String a (dir +:+ String c name)).
      cbn [after_last]. now rewrite IH. }
  now rewrite H.
Qed.

(** X30. Hidden files.  The hidden prefixes are compared with the file
    name only, what follows the last separator of the path, and the
    forbidden extensions with the end of the whole path: the directories
    on the way play no part, so that a file inside a hidden directory,
    such as [static/.git/config], is not forbidden. *)
Theorem hidden_prefix_checks_file_name_only (config : Config) (dir name : string) :
  no_separator name = true ->
  is_file_forbidden config (dir +:+ "/" +:+ name)
  = existsb (fun ext => ends_with (dir +:+ "/" +:+ name) ext) (forbidden_extensions config)
    || existsb (fun prefix => starts_with name prefix) (hidden_prefixes config).
Proof.
  intros Hname. unfold is_file_forbidden.
  change ("/" +:+ name) with (String "/" name).
  rewrite (get_filename_app dir "/" name eq_refl Hname). reflexivity.
Qed.

Lemma hidden_prefix_checks_file_name_only_witness :
  is_file_forbidden default_config "static/.git/config" = false.
Proof.
  refine (eq_trans
            (hidden_prefix_checks_file_name_only default_config "static/.git" "config"
               eq_refl) _).
  reflexivity.
Defined.


(** *** Lemmas on the parts of [serve_file] *)

Lemma substr_from_app_all s t :
  substr_from (s +:+ t) (String.length s) = Return t.
Proof.
  induction s as [|a s IH]; [destruct t; reflexivity|].
  change (String a s +:+ t) with (String a (s +:+ t)). simpl. exact IH.
Qed.

Lemma substr_to_length_eq s a b :
  substr_to s (String.length a) = a -> substr_to s (String.length b) = b ->
  String.length a = String.length b -> a = b.
Proof. intros Ha Hb Hlen. rewrite <- Ha, <- Hb, Hlen. reflexivity. Qed.

(** The route selected by the loop of [resolve_file_path]. *)
Lemma longest_route_spec (routes : gmap string string) request_path :
  let best := longest_route routes request_path in
  (best = ("", "")
   /\ forall r root, routes !! r = Some root ->
        substr_to request_path (String.length r) = r -> r = "")
  \/ (best.1 <> ""
      /\ routes !! best.1 = Some best.2
      /\ substr_to request_path (String.length best.1) = best.1
      /\ forall r root, routes !! r = Some root ->
           substr_to request_path (String.length r) = r ->
           (String.length r <= String.length best.1)%nat).
Proof.
  cbv zeta. unfold longest_route.
  apply (map_fold_weak_ind (fun best (m : gmap string string) =>
    (best = ("", "")
     /\ forall r root, m !! r = Some root ->
          substr_to request_path (String.length r) = r -> r = "")
    \/ (best.1 <> ""
        /\ m !! best.1 = Some best.2
        /\ substr_to request_path (String.length best.1) = best.1
        /\ forall r root, m !! r = Some root ->
             substr_to request_path (String.length r) = r ->
             (String.length r <= String.length best.1)%nat))).
  - left. split; [reflexivity|]. intros r root Hr. rewrite lookup_empty in Hr. discriminate.
  - intros route root m best Hnone IH. cbv beta.
    destruct (String.eqb_spec (substr_to request_path (String.length route)) route)
      as [Hmatch|Hmiss]; cbn [andb].
    + destruct (Nat.ltb _ _) eqn:Hlt; [apply Nat.ltb_lt in Hlt|apply Nat.ltb_ge in Hlt; rename Hlt into Hge].
      * right. cbn [fst snd].
        split; [intros ->; simpl in Hlt; lia|].
        split; [apply lookup_insert_eq|]. split; [exact Hmatch|].
        intros r root' Hr Hpre.
        apply lookup_insert_Some in Hr as [[<- _]|[Hne Hr]]; [lia|].
        destruct IH as [[-> Hall]|(_ & _ & _ & Hall)].
        -- rewrite (Hall r root' Hr Hpre). simpl. lia.
        -- specialize (Hall r root' Hr Hpre). lia.
      * destruct IH as [[-> Hall]|(Hne & Hin & Hpre & Hall)].
        -- left. split; [reflexivity|]. intros r root' Hr Hp.
           apply lookup_insert_Some in Hr as [[<- _]|[Hne Hr]]; [|eauto].
           simpl in Hge. destruct route; [reflexivity|simpl in Hge; lia].
        -- right. split; [exact Hne|].
           split.
           { rewrite lookup_insert_ne; [exact Hin|]. intros Heq. rewrite <- Heq, Hnone in Hin. discriminate. }
           split; [exact Hpre|]. intros r root' Hr Hp.
           apply lookup_insert_Some in Hr as [[<- _]|[Hne' Hr]]; [lia|eauto].
    + destruct IH as [[-> Hall]|(Hne & Hin & Hpre & Hall)].
      * left. split; [reflexivity|]. intros r root' Hr Hp.
        apply lookup_insert_Some in Hr as [[<- _]|[Hne Hr]]; [contradiction|eauto].
      * right. split; [exact Hne|].
        split.
        { rewrite lookup_insert_ne; [exact Hin|]. intros Heq. rewrite <- Heq, Hnone in Hin. discriminate. }
        split; [exact Hpre|]. intros r root' Hr Hp.
        apply lookup_insert_Some in Hr as [[<- _]|[Hne' Hr]]; [contradiction|eauto].
Qed.

Lemma empty_length s : empty s = true <-> s = "".
Proof. destruct s; split; intros H; try reflexivity; discriminate. Qed.

Lemma prefix_app pat b : String.prefix pat (pat +:+ b) = true.
Proof.
  induction pat as [|c pat IH]; [destruct b; reflexivity|].
  change (String c pat +:+ b) with (String c (pat +:+ b)). simpl.
  destruct (ascii_dec c c); [exact IH|contradiction].
Qed.

Lemma contains_prefix s pat : String.prefix pat s = true -> contains s pat = true.
Proof. intros H. destruct s; cbn [contains]; rewrite H; reflexivity. Qed.

Lemma contains_app a pat b : contains (a +:+ pat +:+ b) pat = true.
Proof.
  induction a as [|c a IH].
  { change ("" +:+ pat +:+ b) with (pat +:+ b). apply contains_prefix, prefix_app. }
  change (String c a +:+ pat +:+ b) with (String c (a +:+ pat +:+ b)).
  cbn [contains]. rewrite IH. apply orb_true_r.
Qed.

Definition counted (env : Env) (h : Handler) (r : ServeResult) (h' : Handler) : Prop :=
  files_served (stats_ h') = wrap (files_served (stats_ h) + 1)
  /\ bytes_served (stats_ h') = wrap (bytes_served (stats_ h) + content_length r)
  /\ total_serve_time_us (stats_ h')
     = wrap (total_serve_time_us (stats_ h) + elapsed_us env).

Definition uncounted (h h' : Handler) : Prop :=
  files_served (stats_ h') = files_served (stats_ h)
  /\ bytes_served (stats_ h') = bytes_served (stats_ h)
  /\ total_serve_time_us (stats_ h') = total_serve_time_us (stats_ h).

Lemma cache_file_stats path entry h : stats_ (cache_file path entry h) = stats_ h.
Proof.
  unfold cache_file, evict_lru_entries.
  destruct (evict_loop _ _ _ _ _). destruct (_ <? _); reflexivity.
Qed.

Lemma get_cached_file_stats env path h :
  stats_ (get_cached_file env path h).2 = stats_ h.
Proof.
  unfold get_cached_file. destruct (cache_ h !! path) as [entry|]; [|reflexivity].
  destruct (is_valid env entry); reflexivity.
Qed.

Lemma cached_bytes_replace (cache : gmap string CacheEntry) path entry entry' :
  cache !! path = Some entry -> file_size entry' = file_size entry ->
  cached_bytes (<[path := entry']> cache) = cached_bytes cache.
Proof.
  intros Hsome Hsize.
  rewrite <- (insert_delete_eq cache path entry').
  rewrite cached_bytes_insert by apply lookup_delete_eq.
  rewrite (cached_bytes_delete cache path entry Hsome). lia.
Qed.

Lemma sizes_ok_replace (cache : gmap string CacheEntry) path entry entry' :
  sizes_ok cache -> cache !! path = Some entry -> file_size entry' = file_size entry ->
  sizes_ok (<[path := entry']> cache).
Proof.
  intros Hok Hsome Hsize. apply map_Forall_insert_2; [|exact Hok].
  rewrite Hsize. exact (Hok path entry Hsome).
Qed.

Lemma map_file_size env entry entry' :
  map_file env entry = Some entry' -> file_size entry' = file_size entry.
Proof.
  unfold map_file. destruct (mapped_data entry); [now intros [= <-]|].
  destruct (fs env !! file_path entry) as [file|]; [|discriminate].
  destruct (mappable file); [|discriminate]. now intros [= <-].
Qed.

(** The index is consistent and within the configured limit. *)
Definition within_limit (h : Handler) : Prop :=
  index_consistent h /\ current_cache_size_ h <= max_cache_bytes (config_ h).

Lemma get_cached_file_index env path h :
  within_limit h ->
  let found := (get_cached_file env path h).1 in
  let h1 := (get_cached_file env path h).2 in
  within_limit h1 /\ config_ h1 = config_ h /\ routes_ h1 = routes_ h
  /\ match found with
     | Some entry => cache_ h1 !! path = Some entry
     | None => cache_ h1 !! path = None
     end.
Proof.
  intros [(Hok & Hsum & Hlt) Hmax]. cbv zeta. unfold get_cached_file.
  destruct (cache_ h !! path) as [entry|] eqn:Hpath.
  - destruct (is_valid env entry); cbn [fst snd].
    + repeat split; auto.
    + pose proof (cached_bytes_member _ _ _ Hok Hpath) as Hmem.
      pose proof (cached_bytes_delete _ _ _ Hpath) as Hdel.
      unfold within_limit, index_consistent.
      cbn [with_cache cache_ current_cache_size_ config_ routes_].
      rewrite wrap_small by lia.
      repeat split; try lia.
      * now apply sizes_ok_delete.
      * apply lookup_delete_eq.
  - cbn [fst snd]. repeat split; auto.
Qed.

(** [cache_ttl], [enable_etags] and [allow_directory_traversal] set to
    other values. *)
Definition with_settings (config : Config) (ttl : Z) (etags traversal : bool) : Config :=
  {| root_directory := root_directory config;
     max_cache_size_mb := max_cache_size_mb config;
     max_file_size_mb := max_file_size_mb config;
     cache_ttl := ttl;
     enable_compression := enable_compression config;
     enable_range_requests := enable_range_requests config;
     enable_etags := etags;
     compression_threshold := compression_threshold config;
     compression_types := compression_types config;
     allow_directory_traversal := traversal;
     forbidden_extensions := forbidden_extensions config;
     hidden_prefixes := hidden_prefixes config |}.

Definition set_settings (ttl : Z) (etags traversal : bool) (h : Handler) : Handler :=
  {| config_ := with_settings (config_ h) ttl etags traversal; stats_ := stats_ h;
     routes_ := routes_ h; cache_ := cache_ h;
     current_cache_size_ := current_cache_size_ h |}.

Lemma cache_file_settings ttl etags traversal path entry h :
  cache_file path entry (set_settings ttl etags traversal h)
  = set_settings ttl etags traversal (cache_file path entry h).
Proof.
  unfold cache_file, evict_lru_entries, max_cache_bytes.
  cbn [set_settings with_settings config_ cache_ current_cache_size_ max_cache_size_mb
       stats_ routes_].
  destruct (evict_loop _ _ _ _ _). destruct (_ <? _); reflexivity.
Qed.

Lemma get_cached_file_settings ttl etags traversal env path h :
  get_cached_file env path (set_settings ttl etags traversal h)
  = ((get_cached_file env path h).1,
     set_settings ttl etags traversal (get_cached_file env path h).2).
Proof.
  unfold get_cached_file. cbn [set_settings cache_].
  destruct (cache_ h !! path) as [entry|]; [|reflexivity].
  destruct (is_valid env entry); reflexivity.
Qed.

(** A request that reaches the cache lookup for the regular file [file]
    at [path]: the path resolves, is not forbidden, the file exists and
    the request carries no condition. *)
Definition reaches_file (resolved : outcome string) (env : Env) (h : Handler)
    (headers : gmap string string) (path : string) (file : File) : Prop :=
  resolved = Return path
  /\ empty path = false
  /\ is_file_forbidden (config_ h) path = false
  /\ fs env !! path = Some file
  /\ headers !! "if-none-match" = None
  /\ headers !! "if-modified-since" = None.

Section ServeFile.

(** [std::hash<std::string>], [std::filesystem::path::lexically_normal],
    [static_utils::parse_http_date] (built on [std::get_time] and
    [std::mktime]) and [static_utils::compress_gzip] (zlib) applied to
    the bytes at [data], [None] when [data] is null. *)
Variable hash_string : string -> Z.
Variable normalize_path : string -> string.
Variable parse_http_date : string -> Z.
Variable compress_gzip : option string -> Z -> string.

(** [StaticFileHandler::generate_etag]: [std::hex] stays in force for the
    time as well. *)
Definition generate_etag (path : string) (modified : Z) : string :=
  String dquote
    (hex (wrap (hash_string path)) +:+ "-" +:+ hex (wrap modified)
     +:+ String dquote "").

(** [StaticFileHandler::resolve_file_path], lines 296 to 322: the local
    root of the route followed by the rest of the request path. *)
Definition local_path (h : Handler) (request_path : string) : outcome string :=
  let '(longest_match, local_root) :=
    let best := longest_route (routes_ h) request_path in
    if empty best.1 then ("/", root_directory (config_ h)) else best in
  bind (substr_from request_path (String.length longest_match)) (fun relative_path =>
  let relative_path :=
    if empty relative_path || String.eqb relative_path "/"
    then "/index.html" else relative_path in
  Return (local_root +:+ relative_path)).

(** [StaticFileHandler::resolve_file_path]. *)
Definition resolve_file_path (h : Handler) (request_path : string) : outcome string :=
  bind (local_path h request_path) (fun joined =>
  let path := normalize_path joined in
  Return (if is_safe_path path then path else "")).

(** [StaticFileHandler::compress_content]. *)
Definition compress_content (p : Pointer) (n : Z) : string :=
  compress_gzip (readable p n) n.

Definition new_entry (path tag : string) (modified size : Z) : CacheEntry :=
  {| file_path := path; content_type := get_mime_type path; etag := tag;
     last_modified := modified; file_size := size;
     mapped_data := None; mapped_size := 0;
     last_accessed := 0; access_count := 0;
     is_compressed := false; compressed_data := "" |}.

Definition touched (env : Env) (entry : CacheEntry) (compressed : option string)
  : CacheEntry :=
  {| file_path := file_path entry; content_type := content_type entry;
     etag := etag entry; last_modified := last_modified entry;
     file_size := file_size entry;
     mapped_data := mapped_data entry; mapped_size := mapped_size entry;
     last_accessed := steady_now env;
     access_count := wrap (access_count entry + 1);
     is_compressed :=
       match compressed with Some _ => true | None => is_compressed entry end;
     compressed_data :=
       match compressed with Some c => c | None => compressed_data entry end |}.

(** [serve_file] from the range handling to the end (lines 229 to 293),
    for the entry obtained; [cached] tells whether the entry is the one
    the index holds, so that what is written through the shared pointer
    shows in the index. *)
Definition serve_entry (env : Env) (h : Handler) (headers : gmap string string)
    (path tag : string) (modified fsize : Z) (entry : CacheEntry) (cached : bool)
  : ServeResult * Handler :=
  let ranged : option (ServeResult * Handler) :=
    match headers !! "range" with
    | Some value =>
        if enable_range_requests (config_ h) then
          match parse_range_header value fsize with
          | Some (first, last) =>
              Some ({| status := SUCCESS; result_content_type := "";
                       result_etag := ""; result_last_modified := 0;
                       content_length := wrap (last - first + 1);
                       data := pointer_add (mapped_pointer entry) first;
                       string_data := ""; is_partial_content := true;
                       range_start := first; range_end := last;
                       total_size := fsize |},
                    with_stats h (count_range (stats_ h)))
          | None => None
          end
        else
          Some ({| status := SUCCESS; result_content_type := "";
                   result_etag := ""; result_last_modified := 0;
                   content_length := fsize; data := mapped_pointer entry;
                   string_data := ""; is_partial_content := false;
                   range_start := 0; range_end := 0; total_size := 0 |}, h)
    | None =>
        Some ({| status := SUCCESS; result_content_type := "";
                 result_etag := ""; result_last_modified := 0;
                 content_length := fsize; data := mapped_pointer entry;
                 string_data := ""; is_partial_content := false;
                 range_start := 0; range_end := 0; total_size := 0 |}, h)
    end in
  match ranged with
  | None => (with_status initial_result RANGE_NOT_SATISFIABLE, h)
  | Some (result, h) =>
      let compress :=
        should_compress (config_ h) (content_type entry) (content_length result)
        && accepts_gzip headers && negb (is_partial_content result) in
      let fresh : option string :=
        if compress && empty (compressed_data entry)
        then Some (compress_content (data result) (content_length result))
        else None in
      let entry := touched env entry fresh in
      let send := compress && negb (empty (compressed_data entry)) in
      let result :=
        {| status := SUCCESS;
           result_content_type :=
             if send then content_type entry +:+ "; charset=utf-8"
             else content_type entry;
           result_etag := tag; result_last_modified := modified;
           content_length :=
             if send then size (compressed_data entry) else content_length result;
           data := if send then StringData else data result;
           string_data := if send then compressed_data entry else "";
           is_partial_content := is_partial_content result;
           range_start := range_start result; range_end := range_end result;
           total_size := total_size result |} in
      let h := if send then with_stats h (count_compressed (stats_ h)) else h in
      let h :=
        if cached
        then with_cache h (<[path := entry]> (cache_ h)) (current_cache_size_ h)
        else h in
      (result, with_stats h (count_served env result (stats_ h)))
  end.

Definition not_modified (tag : string) (modified : Z) : ServeResult :=
  {| status := NOT_MODIFIED; result_content_type := ""; result_etag := tag;
     result_last_modified := modified; content_length := 0; data := Null 0;
     string_data := ""; is_partial_content := false;
     range_start := 0; range_end := 0; total_size := 0 |}.

(** [serve_file] from the cache lookup on (lines 202 to 293), for a
    file that exists and that the client does not already have. *)
Definition serve_cached (env : Env) (h : Handler) (headers : gmap string string)
    (path tag : string) (modified fsize : Z) : ServeResult * Handler :=
  match get_cached_file env path h with
  | (Some entry, h) =>
      serve_entry env (with_stats h (count_hit (stats_ h))) headers
        path tag modified fsize entry true
  | (None, h) =>
      let entry := new_entry path tag modified fsize in
      if fsize <=? max_file_bytes (config_ h) then
        match map_file env entry with
        | Some entry =>
            let h := cache_file path entry h in
            serve_entry env (with_stats h (count_miss (stats_ h))) headers
              path tag modified fsize entry true
        | None => (with_status initial_result INTERNAL_ERROR, h)
        end
      else
        serve_entry env (with_stats h (count_miss (stats_ h))) headers
          path tag modified fsize entry false
  end.

(** [StaticFileHandler::serve_file]: the result and the handler after the
    call. *)
Definition serve_file (env : Env) (h : Handler) (request_path : string)
    (headers : gmap string string) : ServeResult * Handler :=
  match resolve_file_path h request_path with
  | Throw _ =>
      let result := with_status initial_result INTERNAL_ERROR in
      (result, with_stats h (count_served env result (stats_ h)))
  | Return path =>
      if empty path then (with_status initial_result NOT_FOUND, h)
      else if is_file_forbidden (config_ h) path
      then (with_status initial_result FORBIDDEN, h)
      else if negb (file_exists env path)
      then (with_status initial_result NOT_FOUND, h)
      else
        let modified := get_last_write_time env path in
        let fsize := get_file_size env path in
        let tag := generate_etag path modified in
        if match headers !! "if-none-match" with
           | Some value => String.eqb value tag
           | None => false
           end
        then (not_modified tag modified, with_stats h (count_not_modified (stats_ h)))
        else if match headers !! "if-modified-since" with
                | Some value => modified <=? parse_http_date value
                | None => false
                end
        then (not_modified tag modified, with_stats h (count_not_modified (stats_ h)))
        else serve_cached env h headers path tag modified fsize
  end.

(** A sequence of calls of [serve_file], each with what it reads from
    outside the handler, its request path and its headers. *)
Fixpoint serve_requests (requests : list (Env * string * gmap string string))
    (h : Handler) : Handler :=
  match requests with
  | [] => h
  | (env, request_path, headers) :: requests' =>
      serve_requests requests' (serve_file env h request_path headers).2
  end.

(** *** Properties of [resolve_file_path] and [serve_file] *)

(** X21. Route selection.  For a request path that starts with a
    registered route, no longer registered route being a prefix of it,
    the local path is the root of that route followed by the rest of the
    request path, or by [/index.html] when the rest is empty or a lone
    slash.  A route matches as a prefix of characters, not of path
    segments: the rest need not start with a slash, and nothing is put
    between the root and it. *)
Theorem longest_prefix_route_wins (h : Handler) (route root rest : string) :
  routes_ h !! route = Some root ->
  route <> "" ->
  (forall r root', routes_ h !! r = Some root' ->
     substr_to (route +:+ rest) (String.length r) = r ->
     (String.length r <= String.length route)%nat) ->
  local_path h (route +:+ rest)
  = Return (root +:+ (if empty rest || String.eqb rest "/"
                      then "/index.html" else rest)).
Proof.
  intros Hroute Hne Hlongest. unfold local_path.
  destruct (longest_route_spec (routes_ h) (route +:+ rest))
    as [[Hbest Hall]|(Hbne & Hin & Hpre & Hall)].
  - exfalso. apply Hne. apply (Hall route root Hroute). apply substr_to_app.
  - destruct (longest_route (routes_ h) (route +:+ rest)) as [best broot].
    cbn [fst snd] in *.
    assert (Heq : best = route).
    { apply (substr_to_length_eq (route +:+ rest)); [exact Hpre|apply substr_to_app|].
      apply Nat.le_antisymm.
      - apply (Hlongest best broot Hin Hpre).
      - apply (Hall route root Hroute). apply substr_to_app. }
    subst best. assert (broot = root) by congruence. subst broot.
    destruct (empty route) eqn:He; [apply empty_length in He; contradiction|].
    rewrite substr_from_app_all. reflexivity.
Qed.

(** X22. The default root.  When no registered route other than the
    empty one is a prefix of the request path, the first character of
    the request path is dropped, whatever it is, and the rest is appended
    to [root_directory] with nothing in between: under the root
    [./static] the request [/a.txt] is looked up at [./statica.txt].
    Only an empty rest or a lone slash brings a separator, with
    [/index.html].  The empty request path makes [substr] throw. *)
Theorem default_root_joins_without_separator (h : Handler) (request_path : string) :
  (forall r root, routes_ h !! r = Some root ->
     substr_to request_path (String.length r) = r -> r = "") ->
  local_path h request_path =
    match request_path with
    | EmptyString => Throw "basic_string::substr"
    | String _ rest =>
        Return (root_directory (config_ h)
                +:+ (if empty rest || String.eqb rest "/"
                     then "/index.html" else rest))
    end.
Proof.
  intros Hnone. unfold local_path.
  destruct (longest_route_spec (routes_ h) request_path)
    as [[Hbest Hall]|(Hbne & Hin & Hpre & Hall)].
  - rewrite Hbest. cbn [fst empty].
    destruct request_path as [|c rest]; reflexivity.
  - exfalso. apply Hbne. exact (Hnone _ _ Hin Hpre).
Qed.

(** X23. Unsafe paths.  When the normalized local path contains two
    consecutive dots or two consecutive slashes anywhere, even inside a
    file name such as [notes..txt], [serve_file] answers NOT_FOUND (not
    FORBIDDEN), before looking at the file system, and leaves the
    handler, statistics included, as it was. *)
Theorem unsafe_path_is_not_found (env : Env) (h : Handler) (request_path : string)
    (headers : gmap string string) (joined before sep after : string) :
  local_path h request_path = Return joined ->
  sep = ".." \/ sep = "//" ->
  normalize_path joined = before +:+ sep +:+ after ->
  serve_file env h request_path headers = (with_status initial_result NOT_FOUND, h).
Proof.
  intros Hlocal Hsep Hnorm. unfold serve_file, serve_cached, resolve_file_path.
  rewrite Hlocal. cbn [bind]. rewrite Hnorm.
  assert (Hunsafe : is_safe_path (before +:+ sep +:+ after) = false).
  { unfold is_safe_path. destruct Hsep as [-> | ->]; rewrite contains_app.
    - reflexivity.
    - apply andb_false_r. }
  rewrite Hunsafe. reflexivity.
Qed.

(** The two outcomes of [serve_entry]. *)
Lemma serve_entry_stats env h headers path tag modified fsize entry cached r h' :
  serve_entry env h headers path tag modified fsize entry cached = (r, h') ->
  (status r = SUCCESS /\ counted env h r h')
  \/ (r = with_status initial_result RANGE_NOT_SATISFIABLE /\ h' = h).
Proof.
  unfold serve_entry.
  destruct (headers !! "range") as [value|].
  - destruct (enable_range_requests (config_ h)).
    + destruct (parse_range_header value fsize) as [[first last]|].
      * cbv zeta. cbn [content_length is_partial_content data config_ with_stats].
        intros [= <- <-]. left. split; [reflexivity|].
        repeat match goal with
               | |- context [if ?b then _ else _] => destruct b
               end; repeat split.
      * intros [= <- <-]. right. split; reflexivity.
    + cbv zeta. cbn [content_length is_partial_content data config_ with_stats].
      intros [= <- <-]. left. split; [reflexivity|].
      repeat match goal with
             | |- context [if ?b then _ else _] => destruct b
             end; repeat split.
  - cbv zeta. cbn [content_length is_partial_content data config_ with_stats].
    intros [= <- <-]. left. split; [reflexivity|].
    repeat match goal with
           | |- context [if ?b then _ else _] => destruct b
           end; repeat split.
Qed.

(** X24. What the served-file statistics count.  [files_served],
    [bytes_served] and [total_serve_time_us] are updated exactly by the
    calls that reach the end of [serve_file]: every SUCCESS adds one file
    and [content_length] bytes, and so does the INTERNAL_ERROR of an
    exception (an empty request path under the default root).  The early
    returns (NOT_FOUND, FORBIDDEN, NOT_MODIFIED, RANGE_NOT_SATISFIABLE
    and the INTERNAL_ERROR of a failed mapping) leave the three counters
    untouched. *)
Theorem only_completed_requests_are_counted (env : Env) (h : Handler)
    (request_path : string) (headers : gmap string string) :
  let r := (serve_file env h request_path headers).1 in
  let h' := (serve_file env h request_path headers).2 in
  match status r with
  | SUCCESS => counted env h r h'
  | INTERNAL_ERROR =>
      ((exists msg, local_path h request_path = Throw msg) /\ counted env h r h')
      \/ ((exists joined, local_path h request_path = Return joined) /\ uncounted h h')
  | _ => uncounted h h'
  end.
Proof.
  cbv zeta. unfold serve_file, serve_cached, resolve_file_path.
  destruct (local_path h request_path) as [joined|msg]; cbn [bind].
  2:{ cbn [fst snd status with_status]. left. split; [eauto|]. repeat split. }
  set (path := if is_safe_path (normalize_path joined) then normalize_path joined else "").
  destruct (empty path); [repeat split|].
  destruct (is_file_forbidden (config_ h) path); [repeat split|].
  destruct (negb (file_exists env path)); [repeat split|].
  cbv zeta.
  destruct (match headers !! "if-none-match" with Some _ => _ | None => _ end);
    [repeat split|].
  destruct (match headers !! "if-modified-since" with Some _ => _ | None => _ end);
    [repeat split|].
  pose proof (get_cached_file_stats env path h) as Hstats.
  destruct (get_cached_file env path h) as [[entry|] h1]; cbn [snd] in Hstats.
  - match goal with
    | |- context [serve_entry ?e ?hh ?hd ?p ?t ?m ?f ?en ?b] =>
        pose proof (serve_entry_stats e hh hd p t m f en b) as Hserve;
        destruct (serve_entry e hh hd p t m f en b) as [r h2]
    end.
    cbn [fst snd].
    destruct (Hserve r h2 eq_refl) as [[Hst Hc]|[-> ->]].
    + rewrite Hst. unfold counted in *. cbn [stats_ with_stats count_hit
        files_served bytes_served total_serve_time_us] in Hc.
      rewrite Hstats in Hc. exact Hc.
    + cbn [status with_status]. unfold uncounted. cbn [stats_ with_stats count_hit
        files_served bytes_served total_serve_time_us]. rewrite Hstats. repeat split.
  - destruct (_ <=? _).
    + destruct (map_file env _) as [entry|].
      * match goal with
        | |- context [serve_entry ?e ?hh ?hd ?p ?t ?m ?f ?en ?b] =>
            pose proof (serve_entry_stats e hh hd p t m f en b) as Hserve;
            destruct (serve_entry e hh hd p t m f en b) as [r h2]
        end.
        cbn [fst snd].
        destruct (Hserve r h2 eq_refl) as [[Hst Hc]|[-> ->]].
        -- rewrite Hst. unfold counted in *. cbn [stats_ with_stats count_miss
             files_served bytes_served total_serve_time_us] in Hc.
           rewrite cache_file_stats, Hstats in Hc. exact Hc.
        -- cbn [status with_status]. unfold uncounted. cbn [stats_ with_stats count_miss
             files_served bytes_served total_serve_time_us].
           rewrite cache_file_stats, Hstats. repeat split.
      * cbn [fst snd status with_status]. right. split; [eauto|].
        unfold uncounted. rewrite Hstats. repeat split.
    + match goal with
      | |- context [serve_entry ?e ?hh ?hd ?p ?t ?m ?f ?en ?b] =>
          pose proof (serve_entry_stats e hh hd p t m f en b) as Hserve;
          destruct (serve_entry e hh hd p t m f en b) as [r h2]
      end.
      cbn [fst snd].
      destruct (Hserve r h2 eq_refl) as [[Hst Hc]|[-> ->]].
      * rewrite Hst. unfold counted in *. cbn [stats_ with_stats count_miss
          files_served bytes_served total_serve_time_us] in Hc.
        rewrite Hstats in Hc. exact Hc.
      * cbn [status with_status]. unfold uncounted. cbn [stats_ with_stats count_miss
          files_served bytes_served total_serve_time_us]. rewrite Hstats. repeat split.
Qed.

(** [serve_entry] writes to the index through the shared entry only. *)
Lemma serve_entry_cache env h headers path tag modified fsize entry cached :
  let h' := (serve_entry env h headers path tag modified fsize entry cached).2 in
  config_ h' = config_ h /\ routes_ h' = routes_ h
  /\ current_cache_size_ h' = current_cache_size_ h
  /\ (cache_ h' = cache_ h
      \/ (cached = true
          /\ exists entry', file_size entry' = file_size entry
                            /\ cache_ h' = <[path := entry']> (cache_ h))).
Proof.
  cbv zeta. unfold serve_entry.
  destruct (headers !! "range") as [value|];
    [destruct (enable_range_requests (config_ h));
     [destruct (parse_range_header value fsize) as [[first last]|]|]|];
    cbv zeta; cbn [content_length is_partial_content data config_ with_stats snd];
    try (repeat split; left; reflexivity);
    destruct cached;
    repeat match goal with
           | |- context [if ?b then _ else _] => destruct b
           end;
    cbn [config_ routes_ current_cache_size_ cache_ with_stats with_cache];
    (repeat split; (left; reflexivity) || (right; split; [reflexivity|eexists; split; [|reflexivity]; reflexivity])).
Qed.

Lemma serve_entry_within_limit env h headers path tag modified fsize entry cached :
  within_limit h ->
  (cached = true -> exists entry0, cache_ h !! path = Some entry0
                                  /\ file_size entry = file_size entry0) ->
  let h' := (serve_entry env h headers path tag modified fsize entry cached).2 in
  within_limit h' /\ config_ h' = config_ h /\ routes_ h' = routes_ h.
Proof.
  intros [(Hok & Hsum & Hlt) Hmax] Hcached. cbv zeta.
  destruct (serve_entry_cache env h headers path tag modified fsize entry cached)
    as (Hcfg & Hrt & Hcur & Hcache).
  split; [|auto]. unfold within_limit, index_consistent.
  rewrite Hcfg, Hcur.
  destruct Hcache as [->|(Htrue & entry' & Hsize & ->)]; [auto|].
  destruct (Hcached Htrue) as (entry0 & Hin & Hsize0).
  repeat split; auto.
  - apply (sizes_ok_replace _ _ entry0); [exact Hok|exact Hin|congruence].
  - rewrite (cached_bytes_replace _ _ entry0); [exact Hsum|exact Hin|congruence].
Qed.

Lemma with_stats_within_limit h st : within_limit h -> within_limit (with_stats h st).
Proof. intros H. exact H. Qed.

Lemma get_file_size_range env path : 0 <= get_file_size env path < size_t_modulus.
Proof.
  unfold get_file_size. destruct (fs env !! path); [apply wrap_range|].
  split; [lia|reflexivity].
Qed.

Lemma serve_file_within_limit env h request_path headers :
  max_file_bytes (config_ h) <= max_cache_bytes (config_ h) ->
  max_file_bytes (config_ h) + max_cache_bytes (config_ h) < size_t_modulus ->
  within_limit h ->
  let h' := (serve_file env h request_path headers).2 in
  within_limit h' /\ config_ h' = config_ h /\ routes_ h' = routes_ h.
Proof.
  intros Hfile Hnowrap Hinv. cbv zeta. unfold serve_file, serve_cached.
  destruct (resolve_file_path h request_path) as [path|msg]; [|cbn [snd]; auto].
  destruct (empty path); [auto|].
  destruct (is_file_forbidden (config_ h) path); [auto|].
  destruct (negb (file_exists env path)); [auto|].
  cbv zeta.
  destruct (match headers !! "if-none-match" with Some _ => _ | None => _ end); [auto|].
  destruct (match headers !! "if-modified-since" with Some _ => _ | None => _ end); [auto|].
  destruct (get_cached_file_index env path h Hinv) as (Hinv1 & Hcfg1 & Hrt1 & Hfound).
  destruct (get_cached_file env path h) as [[entry|] h1]; cbn [fst snd] in *.
  - match goal with
    | |- context [serve_entry ?e ?hh ?hd ?p ?t ?m ?f ?en ?b] =>
        destruct (serve_entry_within_limit e hh hd p t m f en b)
          as (Hinv2 & Hcfg2 & Hrt2)
    end.
    + exact Hinv1.
    + intros _. exists entry. split; [exact Hfound|reflexivity].
    + split; [exact Hinv2|]. rewrite Hcfg2, Hrt2. auto.
  - destruct (Z.leb_spec (get_file_size env path) (max_file_bytes (config_ h1)))
      as [Hfits|Hbig].
    + destruct (map_file env _) as [entry|] eqn:Hmap; [|cbn [snd]; auto].
      apply map_file_size in Hmap. cbn [file_size new_entry] in Hmap.
      pose proof (get_file_size_range env path) as Hrange.
      destruct Hinv1 as [Hcons1 Hmax1].
      rewrite Hcfg1 in Hfits.
      destruct (cache_file_spec path entry h1 Hcons1 Hmax1 Hfound)
        as (Hcons2 & Hin2 & _ & Hbound & _ & Hcfg2 & _ & Hrt2).
      { rewrite Hmap. lia. }
      { rewrite Hmap, Hcfg1. lia. }
      match goal with
      | |- context [serve_entry ?e ?hh ?hd ?p ?t ?m ?f ?en ?b] =>
          destruct (serve_entry_within_limit e hh hd p t m f en b)
            as (Hinv3 & Hcfg3 & Hrt3)
      end.
      * split; [exact Hcons2|]. apply Hbound. rewrite Hmap, Hcfg1. lia.
      * intros _. exists entry. split; [exact Hin2|reflexivity].
      * split; [exact Hinv3|]. rewrite Hcfg3, Hrt3. cbn [config_ routes_ with_stats].
        rewrite Hcfg2, Hrt2. auto.
    + match goal with
      | |- context [serve_entry ?e ?hh ?hd ?p ?t ?m ?f ?en ?b] =>
          destruct (serve_entry_within_limit e hh hd p t m f en b)
            as (Hinv2 & Hcfg2 & Hrt2)
      end.
      * exact Hinv1.
      * intros [=].
      * split; [exact Hinv2|]. rewrite Hcfg2, Hrt2. auto.
Qed.

(** X28. The size of the index.  When [max_file_size_mb] does not exceed
    [max_cache_size_mb] (and the two limits in bytes fit a [size_t]
    together), any sequence of calls of [serve_file], over any states of
    the file system, keeps the recorded size equal to the sum of the
    sizes of the cached entries and within [max_cache_size_mb]. *)
Theorem cache_stays_within_limit
    (requests : list (Env * string * gmap string string)) (h : Handler) :
  max_file_bytes (config_ h) <= max_cache_bytes (config_ h) ->
  max_file_bytes (config_ h) + max_cache_bytes (config_ h) < size_t_modulus ->
  index_consistent h ->
  current_cache_size_ h <= max_cache_bytes (config_ h) ->
  let h' := serve_requests requests h in
  index_consistent h'
  /\ current_cache_size_ h' <= max_cache_bytes (config_ h')
  /\ config_ h' = config_ h /\ routes_ h' = routes_ h.
Proof.
  revert h. induction requests as [|[[env request_path] headers] requests IH];
    intros h Hfile Hnowrap Hcons Hmax; cbv zeta; cbn [serve_requests].
  - auto.
  - destruct (serve_file_within_limit env h request_path headers Hfile Hnowrap)
      as ([Hcons1 Hmax1] & Hcfg1 & Hrt1); [split; assumption|].
    destruct (IH (serve_file env h request_path headers).2) as (H1 & H2 & H3 & H4);
      [rewrite Hcfg1; exact Hfile|rewrite Hcfg1; exact Hnowrap
      |exact Hcons1|exact Hmax1|].
    split; [exact H1|]. split; [exact H2|].
    split; [rewrite H3; exact Hcfg1|rewrite H4; exact Hrt1].
Qed.

(** [serve_file] up to the cache lookup. *)
Lemma serve_file_reaches env h request_path headers path file :
  reaches_file (resolve_file_path h request_path) env h headers path file ->
  serve_file env h request_path headers
  = serve_cached env h headers path (generate_etag path (mtime file))
      (mtime file) (wrap (size (bytes file))).
Proof.
  intros (Hres & Hne & Hforb & Hfile & Hinm & Hims). unfold serve_file.
  rewrite Hres, Hne, Hforb.
  unfold file_exists, get_last_write_time, get_file_size.
  rewrite Hfile, Hinm, Hims. reflexivity.
Qed.

(** X25. Files above [max_file_size_mb].  A request for an existing file
    larger than the limit, not in the index, from a client that does not
    accept gzip: the file is neither mapped nor cached, a cache miss is
    counted, and unless the range is refused the result is SUCCESS with a
    null [data] pointer (moved by [range_start] for a range) while
    [content_length] is the size of the file: there is nothing to send. *)
Theorem oversize_file_has_no_data (env : Env) (h : Handler) (request_path : string)
    (headers : gmap string string) (path : string) (file : File) :
  reaches_file (resolve_file_path h request_path) env h headers path file ->
  cache_ h !! path = None ->
  max_file_bytes (config_ h) < wrap (size (bytes file)) ->
  accepts_gzip headers = false ->
  let r := (serve_file env h request_path headers).1 in
  let h' := (serve_file env h request_path headers).2 in
  cache_ h' = cache_ h
  /\ cache_misses (stats_ h') = wrap (cache_misses (stats_ h) + 1)
  /\ (r = with_status initial_result RANGE_NOT_SATISFIABLE
      \/ (status r = SUCCESS /\ data r = Null (range_start r)
          /\ (headers !! "range" = None ->
              content_length r = wrap (size (bytes file))))).
Proof.
  intros Hreach Hnone Hbig Hgzip. cbv zeta.
  rewrite (serve_file_reaches _ _ _ _ _ _ Hreach).
  unfold serve_cached, get_cached_file. rewrite Hnone.
  destruct (Z.leb_spec (wrap (size (bytes file))) (max_file_bytes (config_ h)));
    [lia|].
  unfold serve_entry. rewrite Hgzip.
  destruct (headers !! "range") as [value|].
  - cbn [config_ with_stats].
    destruct (enable_range_requests (config_ h)).
    + destruct (parse_range_header value _) as [[first last]|].
      * cbv zeta. cbn [is_partial_content]. rewrite !andb_false_r. cbn [andb].
        cbn [fst snd cache_ with_stats stats_ count_served count_range count_miss
             cache_misses status data range_start mapped_pointer new_entry
             mapped_data pointer_add].
        repeat split. right. repeat split; discriminate.
      * cbn [fst snd cache_ with_stats stats_ count_miss cache_misses].
        repeat split. left. reflexivity.
    + cbv zeta. cbn [is_partial_content]. rewrite !andb_false_r. cbn [andb].
      cbn [fst snd cache_ with_stats stats_ count_served count_miss
           cache_misses status data range_start mapped_pointer new_entry
           mapped_data content_length].
      repeat split. right. repeat split.
  - cbv zeta. cbn [is_partial_content]. rewrite !andb_false_r. cbn [andb].
    cbn [fst snd cache_ with_stats stats_ count_served count_miss
         cache_misses status data range_start mapped_pointer new_entry
         mapped_data content_length].
    repeat split. right. repeat split.
Qed.

(** X26. The compressed copy.  Once an entry holds compressed data, a
    request that qualifies for compression is answered with that copy,
    without calling the compressor and whatever the file contains now;
    the content type gets [; charset=utf-8] appended, and
    [files_compressed] is incremented by every such response, not once
    per file. *)
Theorem compressed_copy_is_reused (env : Env) (h : Handler)
    (request_path : string) (headers : gmap string string) (path : string)
    (file : File) (entry : CacheEntry) (region : string) :
  reaches_file (resolve_file_path h request_path) env h headers path file ->
  cache_ h !! path = Some entry ->
  file_path entry = path ->
  mapped_data entry = Some region ->
  headers !! "range" = None ->
  accepts_gzip headers = true ->
  should_compress (config_ h) (content_type entry) (wrap (size (bytes file))) = true ->
  empty (compressed_data entry) = false ->
  let r := (serve_file env h request_path headers).1 in
  let h' := (serve_file env h request_path headers).2 in
  r = {| status := SUCCESS;
         result_content_type := content_type entry +:+ "; charset=utf-8";
         result_etag := generate_etag path (mtime file);
         result_last_modified := mtime file;
         content_length := size (compressed_data entry);
         data := StringData; string_data := compressed_data entry;
         is_partial_content := false;
         range_start := 0; range_end := 0; total_size := 0 |}
  /\ cache_ h' = <[path := touched env entry None]> (cache_ h)
  /\ files_compressed (stats_ h') = wrap (files_compressed (stats_ h) + 1)
  /\ bytes_served (stats_ h')
     = wrap (bytes_served (stats_ h) + size (compressed_data entry)).
Proof.
  intros Hreach Hin Hpath Hmapped Hrange Hgzip Hcompress Hstored. cbv zeta.
  pose proof Hreach as (_ & _ & _ & Hfile & _).
  rewrite (serve_file_reaches _ _ _ _ _ _ Hreach).
  unfold serve_cached, get_cached_file, is_valid, file_exists.
  rewrite Hin, Hmapped, Hpath, Hfile.
  unfold serve_entry. rewrite Hrange, Hgzip. cbv zeta.
  cbn [is_partial_content content_length config_ with_stats].
  rewrite Hcompress, Hstored. cbn [andb negb].
  cbn [touched compressed_data content_type]. rewrite Hstored. cbn [andb negb].
  cbn [fst snd]. repeat split.
Qed.

(** X27. A cache hit is never revalidated.  As long as a file exists at
    the path, the entry found in the index is used as it is: [data]
    points to the mapping made when the file was first served, whatever
    the file contains now, while the ETag, the modification time and
    [content_length] are those of the file as it is now.  The entry stays
    in the index with its access time and count updated. *)
Theorem cache_hit_is_never_revalidated (env : Env) (h : Handler)
    (request_path : string) (headers : gmap string string) (path : string)
    (file : File) (entry : CacheEntry) (region : string) :
  reaches_file (resolve_file_path h request_path) env h headers path file ->
  cache_ h !! path = Some entry ->
  file_path entry = path ->
  mapped_data entry = Some region ->
  headers !! "range" = None ->
  accepts_gzip headers = false ->
  let r := (serve_file env h request_path headers).1 in
  let h' := (serve_file env h request_path headers).2 in
  r = {| status := SUCCESS; result_content_type := content_type entry;
         result_etag := generate_etag path (mtime file);
         result_last_modified := mtime file;
         content_length := wrap (size (bytes file));
         data := Mapping region 0; string_data := "";
         is_partial_content := false;
         range_start := 0; range_end := 0; total_size := 0 |}
  /\ cache_ h' = <[path := touched env entry None]> (cache_ h)
  /\ current_cache_size_ h' = current_cache_size_ h
  /\ cache_hits (stats_ h') = wrap (cache_hits (stats_ h) + 1).
Proof.
  intros Hreach Hin Hpath Hmapped Hrange Hgzip. cbv zeta.
  pose proof Hreach as (_ & _ & _ & Hfile & _).
  rewrite (serve_file_reaches _ _ _ _ _ _ Hreach).
  unfold serve_cached, get_cached_file, is_valid, file_exists.
  rewrite Hin, Hmapped, Hpath, Hfile.
  unfold serve_entry. rewrite Hrange, Hgzip. cbv zeta.
  cbn [is_partial_content]. rewrite !andb_false_r. cbn [andb].
  unfold mapped_pointer. rewrite Hmapped.
  cbn [fst snd touched content_type]. repeat split.
Qed.

Lemma serve_entry_settings ttl etags traversal env h headers path tag modified fsize entry cached :
  serve_entry env (set_settings ttl etags traversal h) headers path tag modified fsize entry cached
  = ((serve_entry env h headers path tag modified fsize entry cached).1,
     set_settings ttl etags traversal
       (serve_entry env h headers path tag modified fsize entry cached).2).
Proof.
  unfold serve_entry, should_compress.
  cbn [set_settings with_settings config_ enable_range_requests].
  destruct (headers !! "range") as [value|];
    [destruct (enable_range_requests (config_ h));
     [destruct (parse_range_header value fsize) as [[first last]|]|]|];
    try reflexivity;
    cbv zeta;
    cbn [content_length is_partial_content data config_ with_stats set_settings
         with_settings enable_compression compression_threshold compression_types];
    destruct cached;
    repeat match goal with
           | |- context [if ?b then _ else _] => destruct b
           end;
    reflexivity.
Qed.

(** X29. Three settings are never read.  [serve_file] behaves the same
    whatever [cache_ttl], [enable_etags] and [allow_directory_traversal]
    are: cached entries never expire, with ETags disabled the result
    still carries the ETag and [If-None-Match] is still honoured, and
    with directory traversal allowed a path with two dots is still
    refused. *)
Theorem unread_settings (ttl : Z) (etags traversal : bool) (env : Env) (h : Handler)
    (request_path : string) (headers : gmap string string) :
  serve_file env (set_settings ttl etags traversal h) request_path headers
  = ((serve_file env h request_path headers).1,
     set_settings ttl etags traversal (serve_file env h request_path headers).2).
Proof.
  unfold serve_file, resolve_file_path.
  change (local_path (set_settings ttl etags traversal h) request_path)
    with (local_path h request_path).
  destruct (local_path h request_path) as [joined|msg]; cbn [bind]; [|reflexivity].
  set (path := if is_safe_path (normalize_path joined) then normalize_path joined else "").
  destruct (empty path); [reflexivity|].
  change (is_file_forbidden (config_ (set_settings ttl etags traversal h)) path)
    with (is_file_forbidden (config_ h) path).
  destruct (is_file_forbidden (config_ h) path); [reflexivity|].
  destruct (negb (file_exists env path)); [reflexivity|].
  cbv zeta.
  destruct (match headers !! "if-none-match" with Some _ => _ | None => _ end);
    [reflexivity|].
  destruct (match headers !! "if-modified-since" with Some _ => _ | None => _ end);
    [reflexivity|].
  unfold serve_cached. rewrite get_cached_file_settings.
  destruct (get_cached_file env path h) as [[entry|] h1]; cbn [fst snd].
  - apply (serve_entry_settings ttl etags traversal env (with_stats h1 (count_hit (stats_ h1)))).
  - change (max_file_bytes (config_ (set_settings ttl etags traversal h1)))
      with (max_file_bytes (config_ h1)).
    destruct (_ <=? _).
    + destruct (map_file env _) as [entry|]; [|reflexivity].
      cbv zeta. rewrite cache_file_settings.
      apply (serve_entry_settings ttl etags traversal env
               (with_stats (cache_file path entry h1)
                  (count_miss (stats_ (cache_file path entry h1))))).
    + apply (serve_entry_settings ttl etags traversal env
               (with_stats h1 (count_miss (stats_ h1)))).
Qed.

End ServeFile.


(** *** Stand-ins for the library routines, for the examples *)

(** [lexically_normal] on paths that are already normal. *)
Definition normalize_normal (path : string) : string := path.

(** A hash function. *)
Definition hash_length (s : string) : Z := size s.

(** A date parser that reads every date as the epoch. *)
Definition parse_date_epoch (date_str : string) : Z := 0.

(** A compressor: fails on a null pointer, otherwise returns a marker in
    front of the bytes. *)
Definition compress_marked (input : option string) (n : Z) : string :=
  match input with
  | Some text => "gz:" +:+ text
  | None => ""
  end.

Definition empty_stats : Stats := {|
  files_served := 0; bytes_served := 0; cache_hits := 0; cache_misses := 0;
  files_compressed := 0; range_requests := 0; not_modified_responses := 0;
  total_serve_time_us := 0
|}.

(** [StaticFileHandler handler; handler.add_route("/static", "static");] *)
Definition example_handler : Handler :=
  add_route "/static" "static"
    {| config_ := default_config; stats_ := empty_stats; routes_ := ∅;
       cache_ := ∅; current_cache_size_ := 0 |}.

Definition example_env : Env := {|
  fs := <["static/a.txt" := {| mtime := 1700000000; bytes := "hi"; mappable := true |}]> ∅;
  steady_now := 10; system_now := 1700000100; elapsed_us := 3
|}.

(** *** Examples *)

Lemma longest_prefix_route_wins_witness :
  local_path example_handler "/staticfoo.txt" = Return "staticfoo.txt".
Proof.
  apply (longest_prefix_route_wins example_handler "/static" "static" "foo.txt").
  - reflexivity.
  - discriminate.
  - intros r root' Hr _.
    unfold example_handler, add_route in Hr. cbn [routes_] in Hr.
    apply lookup_insert_Some in Hr as [[<- _]|[_ Hr]]; [simpl; lia|].
    rewrite lookup_empty in Hr. discriminate.
Defined.

Lemma default_root_joins_without_separator_witness :
  local_path example_handler "/a.txt" = Return "./statica.txt".
Proof.
  apply (default_root_joins_without_separator example_handler "/a.txt").
  intros r root Hr Hprefix.
  unfold example_handler, add_route in Hr. cbn [routes_] in Hr.
  apply lookup_insert_Some in Hr as [[<- _]|[_ Hr]]; [discriminate|].
  rewrite lookup_empty in Hr. discriminate.
Defined.

Lemma unsafe_path_is_not_found_witness :
  serve_file hash_length normalize_normal parse_date_epoch compress_marked
    example_env example_handler "/static/notes..txt" ∅
  = (with_status initial_result NOT_FOUND, example_handler).
Proof.
  apply (unsafe_path_is_not_found hash_length normalize_normal parse_date_epoch
           compress_marked example_env example_handler "/static/notes..txt" ∅
           "static/notes..txt" "static/notes" ".." "txt").
  - reflexivity.
  - left. reflexivity.
  - reflexivity.
Defined.

(** The default configuration with other limits. *)
Definition example_config (max_file_mb threshold : Z) : Config := {|
  root_directory := "./static";
  max_cache_size_mb := 512;
  max_file_size_mb := max_file_mb;
  cache_ttl := 60;
  enable_compression := true;
  enable_range_requests := true;
  enable_etags := true;
  compression_threshold := threshold;
  compression_types :=
    ["text/html"; "text/css"; "text/javascript";
     "application/javascript"; "application/json"; "text/xml"];
  allow_directory_traversal := false;
  forbidden_extensions := [".tmp"; ".bak"; ".log"];
  hidden_prefixes := ["."; "_"]
|}.

(** A handler that maps no file: [max_file_size_mb] is 0. *)
Definition example_unmapped : Handler :=
  add_route "/static" "static"
    {| config_ := example_config 0 1024; stats_ := empty_stats; routes_ := ∅;
       cache_ := ∅; current_cache_size_ := 0 |}.

Lemma example_unmapped_reaches :
  reaches_file (resolve_file_path normalize_normal example_unmapped "/static/a.txt")
    example_env example_unmapped ∅ "static/a.txt"
    {| mtime := 1700000000; bytes := "hi"; mappable := true |}.
Proof. repeat split; reflexivity. Defined.

Lemma oversize_file_has_no_data_witness :
  cache_ (serve_file hash_length normalize_normal parse_date_epoch compress_marked
            example_env example_unmapped "/static/a.txt" ∅).2 = ∅.
Proof.
  apply (oversize_file_has_no_data hash_length normalize_normal parse_date_epoch
           compress_marked example_env example_unmapped "/static/a.txt" ∅
           "static/a.txt"
           {| mtime := 1700000000; bytes := "hi"; mappable := true |}
           example_unmapped_reaches).
  - reflexivity.
  - reflexivity.
  - reflexivity.
Defined.

(** A handler whose index holds a page under a mapping and a compressed
    copy made before the file changed. *)
Definition example_page : CacheEntry :=
  {| file_path := "static/a.html"; content_type := "text/html";
     etag := ""; last_modified := 1600000000; file_size := 3;
     mapped_data := Some "old"; mapped_size := 3;
     last_accessed := 5; access_count := 1;
     is_compressed := true; compressed_data := "gz:old" |}.

Definition example_cached : Handler :=
  add_route "/static" "static"
    {| config_ := example_config 100 0; stats_ := empty_stats; routes_ := ∅;
       cache_ := <["static/a.html" := example_page]> ∅;
       current_cache_size_ := 3 |}.

Definition example_changed : Env := {|
  fs := <["static/a.html" :=
            {| mtime := 1700000000; bytes := "newer"; mappable := true |}]> ∅;
  steady_now := 10; system_now := 1700000100; elapsed_us := 3
|}.

Lemma example_changed_reaches (headers : gmap string string) :
  headers !! "if-none-match" = None -> headers !! "if-modified-since" = None ->
  reaches_file (resolve_file_path normalize_normal example_cached "/static/a.html")
    example_changed example_cached headers "static/a.html"
    {| mtime := 1700000000; bytes := "newer"; mappable := true |}.
Proof. intros Hinm Hims. repeat split; try reflexivity; assumption. Defined.

Lemma compressed_copy_is_reused_witness :
  string_data
    (serve_file hash_length normalize_normal parse_date_epoch compress_marked
       example_changed example_cached "/static/a.html"
       (<["accept-encoding" := "gzip"]> ∅)).1 = "gz:old".
Proof.
  assert (Hreach :
    reaches_file (resolve_file_path normalize_normal example_cached "/static/a.html")
      example_changed example_cached (<["accept-encoding" := "gzip"]> ∅)
      "static/a.html"
      {| mtime := 1700000000; bytes := "newer"; mappable := true |})
    by (apply example_changed_reaches; reflexivity).
  destruct (compressed_copy_is_reused hash_length normalize_normal
              parse_date_epoch compress_marked example_changed example_cached
              "/static/a.html" (<["accept-encoding" := "gzip"]> ∅)
              "static/a.html"
              {| mtime := 1700000000; bytes := "newer"; mappable := true |}
              example_page "old" Hreach) as [Hresult _];
    [reflexivity..|rewrite Hresult; reflexivity].
Defined.

Lemma cache_hit_is_never_revalidated_witness :
  data (serve_file hash_length normalize_normal parse_date_epoch compress_marked
          example_changed example_cached "/static/a.html" ∅).1 = Mapping "old" 0
  /\ content_length
       (serve_file hash_length normalize_normal parse_date_epoch compress_marked
          example_changed example_cached "/static/a.html" ∅).1 = 5.
Proof.
  assert (Hreach :
    reaches_file (resolve_file_path normalize_normal example_cached "/static/a.html")
      example_changed example_cached ∅ "static/a.html"
      {| mtime := 1700000000; bytes := "newer"; mappable := true |})
    by (apply example_changed_reaches; reflexivity).
  destruct (cache_hit_is_never_revalidated hash_length normalize_normal
              parse_date_epoch compress_marked example_changed example_cached
              "/static/a.html" ∅ "static/a.html"
              {| mtime := 1700000000; bytes := "newer"; mappable := true |}
              example_page "old" Hreach) as [Hresult _];
    [reflexivity..|rewrite Hresult; split; reflexivity].
Defined.

Lemma example_handler_consistent : index_consistent example_handler.
Proof. split; [apply map_Forall_empty|split; reflexivity]. Defined.

Lemma cache_stays_within_limit_witness :
  current_cache_size_
    (serve_requests hash_length normalize_normal parse_date_epoch compress_marked
       [(example_env, "/static/a.txt", ∅); (example_env, "/static/a.txt", ∅)]
       example_handler)
  <= max_cache_bytes default_config.
Proof.
  refine (proj1 (proj2 (cache_stays_within_limit hash_length normalize_normal
                          parse_date_epoch compress_marked
                          [(example_env, "/static/a.txt", ∅);
                           (example_env, "/static/a.txt", ∅)]
                          example_handler _ _ example_handler_consistent _))).
  - vm_compute. congruence.
  - vm_compute. reflexivity.
  - vm_compute. congruence.
Defined.

End Static.
